(** * Spotify MCP server: a shallow embedding of [index.js]

    The server keeps an OAuth token triple in three instance fields, refreshes
    it against the accounts service, forwards tool invocations to the Web API
    and wraps every outcome in a one-item text envelope.  The embedding below
    follows [index.js] method by method.  Everything outside the process (the
    clock, the two remote services, the disk, the browser callbacks) is an
    oracle of a [World]; every effect is recorded in a chronological log. *)

From Stdlib Require Import ZArith List String Ascii Bool Lia DecimalString Permutation.
Import ListNotations.
Open Scope string_scope.
Open Scope Z_scope.

Set Warnings "-register-all".

(** ** JavaScript values *)

Module Js.

(** A finite non-zero number is kept as the decimal [s * 10^e] that
    [Number::toString] prints (the shortest one that reads back as the same
    double); zero and the infinities have constructors of their own.  Values
    delivered by a JSON parser are never [NaN]. *)
Inductive Number : Type :=
| NZero
| NInf (neg : bool)
| NDec (neg : bool) (s : positive) (e : Z).

(** An object is the list of its own properties in the order in which they
    were created; a key occurs once.  A string is well-formed text in UTF-8. *)
Inductive Json : Type :=
| JNull
| JBool (b : bool)
| JNum (n : Number)
| JStr (s : string)
| JArr (items : list Json)
| JObj (entries : list (string * Json)).

(** The result of a property read, or a parameter: [undefined] or a value.
    All data of this program arrives through JSON (tool arguments, HTTP
    bodies, the token file), so [undefined] only occurs at top level. *)
Inductive Value : Type :=
| Undefined
| Val (j : Json).

Definition int (z : Z) : Number :=
  match z with
  | Z0 => NZero
  | Zpos p => NDec false p 0
  | Zneg p => NDec true p 0
  end.

Definition str (s : string) : Value := Val (JStr s).
Definition null : Value := Val JNull.

(** [!v] is [negb (truthy v)]. *)
Definition truthy (v : Value) : bool :=
  match v with
  | Undefined => false
  | Val JNull => false
  | Val (JBool b) => b
  | Val (JNum NZero) => false
  | Val (JNum _) => true
  | Val (JStr s) => negb (String.eqb s EmptyString)
  | Val (JArr _) => true
  | Val (JObj _) => true
  end.

Definition is_undefined (v : Value) : bool :=
  match v with Undefined => true | Val _ => false end.

Definition is_null (v : Value) : bool :=
  match v with Val JNull => true | _ => false end.

(** A default parameter [x = d] takes [d] exactly when the argument is
    [undefined]. *)
Definition default (d : Json) (v : Value) : Json :=
  match v with Undefined => d | Val j => j end.

Fixpoint lookup (k : string) (entries : list (string * Json)) : Value :=
  match entries with
  | [] => Undefined
  | (k', v) :: rest => if String.eqb k k' then Val v else lookup k rest
  end.

(** Does the object have an own property [k]? *)
Definition has_own (k : string) (entries : list (string * Json)) : bool :=
  negb (is_undefined (lookup k entries)).

(** ** Number to string *)

Definition digits (p : positive) : string :=
  NilZero.string_of_uint (Pos.to_uint p).

Definition zeros (n : nat) : string :=
  string_of_list_ascii (repeat "0"%char n).

Fixpoint drop_zeros (l : list ascii) : list ascii * nat :=
  match l with
  | c :: rest =>
      if Ascii.eqb c "0"%char
      then let '(r, n) := drop_zeros rest in (r, S n)
      else (l, O)
  | [] => ([], O)
  end.

(** The digits of [s] without trailing zeros, and how many were removed. *)
Definition significand (s : positive) : string * nat :=
  let '(r, n) := drop_zeros (rev (list_ascii_of_string (digits s))) in
  (string_of_list_ascii (rev r), n).

Definition Z_toString (z : Z) : string :=
  match z with
  | Z0 => "0"
  | Zpos p => digits p
  | Zneg p => "-" ++ digits p
  end.

(** [Number::toString(x, 10)]: with [k] digits [ds] and [x = 0.ds * 10^n],
    plain notation for [-5 <= n <= 21] and exponent notation otherwise. *)
Definition Number_toString (x : Number) : string :=
  match x with
  | NZero => "0"
  | NInf neg => if neg then "-Infinity" else "Infinity"
  | NDec neg s e =>
      let '(ds, z) := significand s in
      let k := String.length ds in
      let n := e + Z.of_nat z + Z.of_nat k in
      (if neg then "-" else EmptyString) ++
      (if (-5 <=? n) && (n <=? 21) then
         if Z.of_nat k <=? n then ds ++ zeros (Z.to_nat n - k)
         else if 0 <? n then
           substring 0 (Z.to_nat n) ds ++ "." ++
           substring (Z.to_nat n) (k - Z.to_nat n) ds
         else "0." ++ zeros (Z.to_nat (- n)) ++ ds
       else
         let x := n - 1 in
         let ex := (if x <? 0 then "-" else "+") ++ Z_toString (Z.abs x) in
         if Nat.eqb k 1 then ds ++ "e" ++ ex
         else substring 0 1 ds ++ "." ++ substring 1 (k - 1) ds ++ "e" ++ ex)
  end.

(** ** ToString and Array.prototype.join *)

(** Can the value be converted to a string?  A primitive always can.  An
    object that came out of JSON inherits [toString] from [Object.prototype]
    unless it has an own property of that name; such a property holds a JSON
    value, which is not callable, and [valueOf] gives back the object, so the
    conversion throws a [TypeError].  An array is converted by joining its
    elements, each of which is converted in turn. *)
Fixpoint convertible (v : Json) : bool :=
  match v with
  | JArr items =>
      (fix all (l : list Json) : bool :=
         match l with
         | [] => true
         | x :: rest => convertible x && all rest
         end) items
  | JObj entries => negb (has_own "toString" entries)
  | _ => true
  end.

(** The string a convertible value is converted to. *)
Fixpoint toString (v : Json) : string :=
  match v with
  | JNull => "null"
  | JBool b => if b then "true" else "false"
  | JNum n => Number_toString n
  | JStr s => s
  | JArr items =>
      (fix join (l : list Json) : string :=
         match l with
         | [] => EmptyString
         | x :: rest =>
             let hd := match x with JNull => EmptyString | _ => toString x end in
             match rest with
             | [] => hd
             | _ :: _ => hd ++ "," ++ join rest
             end
         end) items
  | JObj _ => "[object Object]"
  end.

(** An element of [join]: [null] (and [undefined]) give the empty string. *)
Definition join_item (x : Json) : string :=
  match x with JNull => EmptyString | _ => toString x end.

Definition Array_join (sep : string) (items : list Json) : string :=
  String.concat sep (map join_item items).

(** Template literal interpolation and [String(v)], for a value that can
    be converted. *)
Definition Value_toString (v : Value) : string :=
  match v with
  | Undefined => "undefined"
  | Val j => toString j
  end.

Definition Value_convertible (v : Value) : bool :=
  match v with
  | Undefined => true
  | Val j => convertible j
  end.

Definition isArray (v : Json) : bool :=
  match v with JArr _ => true | _ => false end.

(** ** Enumerating own properties *)

Fixpoint decimal (acc : N) (s : string) : option N :=
  match s with
  | EmptyString => Some acc
  | String c rest =>
      let d := N_of_ascii c in
      if ((48 <=? d) && (d <=? 57))%N then decimal (10 * acc + (d - 48)) rest
      else None
  end.

(** An array index: the canonical decimal numeral of an integer from [0] to
    [2^32 - 2]. *)
Definition array_index (k : string) : option N :=
  match k with
  | EmptyString => None
  | String c rest =>
      if Ascii.eqb c "0" && negb (String.eqb rest EmptyString) then None
      else
        match decimal 0 k with
        | Some n => if (n <? 4294967295)%N then Some n else None
        | None => None
        end
  end.

Definition is_index (entry : string * Json) : bool :=
  match array_index (fst entry) with Some _ => true | None => false end.

Fixpoint insert_index (n : N) (entry : string * Json)
                      (sorted : list (N * (string * Json))) : list (N * (string * Json)) :=
  match sorted with
  | [] => [(n, entry)]
  | (m, e) :: rest =>
      if (n <? m)%N then (n, entry) :: sorted
      else (m, e) :: insert_index n entry rest
  end.

Definition by_index (entries : list (string * Json)) : list (N * (string * Json)) :=
  fold_left (fun sorted entry =>
               match array_index (fst entry) with
               | Some n => insert_index n entry sorted
               | None => sorted
               end) entries [].

(** The order in which [Object.entries], [Object.keys] and [for-in] visit
    the own properties: array indices first, in ascending order, then the
    other keys in the order of their creation. *)
Definition own_properties (entries : list (string * Json)) : list (string * Json) :=
  (map snd (by_index entries) ++ filter (fun entry => negb (is_index entry)) entries)%list.

End Js.

Import Js.

(** ** Percent encoding *)

Module Url.

Definition hex_digit (n : N) : ascii :=
  ascii_of_N (if (n <? 10)%N then 48 + n else 55 + n)%N.

Definition percent (c : ascii) : string :=
  let n := N_of_ascii c in
  String "%" (String (hex_digit (n / 16)) (String (hex_digit (n mod 16)) EmptyString)).

Definition between (lo hi c : ascii) : bool :=
  ((N_of_ascii lo <=? N_of_ascii c) && (N_of_ascii c <=? N_of_ascii hi))%N.

Definition alphanumeric (c : ascii) : bool :=
  between "a" "z" c || between "A" "Z" c || between "0" "9" c.

Definition one_of (set : string) (c : ascii) : bool :=
  existsb (Ascii.eqb c) (list_ascii_of_string set).

(** [encodeURIComponent] leaves the unreserved marks [-_.!~*'()] and the
    alphanumerics, and escapes every other byte of the UTF-8 text.  It
    rejects a string with a lone surrogate; a string here is well-formed
    text, given by its UTF-8 bytes, so the function is total. *)
Definition uri_unreserved (c : ascii) : bool :=
  alphanumeric c || one_of "-_.!~*'()" c.

Fixpoint encodeURIComponent (s : string) : string :=
  match s with
  | EmptyString => EmptyString
  | String c rest =>
      (if uri_unreserved c then String c EmptyString else percent c)
      ++ encodeURIComponent rest
  end.

(** The [application/x-www-form-urlencoded] serializer of [URLSearchParams]:
    alphanumerics and [*-._] stay, a space becomes [+], the rest is escaped. *)
Definition form_safe (c : ascii) : bool :=
  alphanumeric c || one_of "*-._" c.

Definition form_byte (c : ascii) : string :=
  if form_safe c then String c EmptyString
  else if Ascii.eqb c " " then "+"
  else percent c.

Fixpoint form_encode (s : string) : string :=
  match s with
  | EmptyString => EmptyString
  | String c rest => form_byte c ++ form_encode rest
  end.

(** A [URLSearchParams] object is its list of name/value pairs. *)
Definition URLSearchParams : Type := list (string * string).

Definition append (k v : string) (q : URLSearchParams) : URLSearchParams :=
  (q ++ [(k, v)])%list.

Definition form_pair (p : string * string) : string :=
  form_encode (fst p) ++ "=" ++ form_encode (snd p).

Definition serialize (q : URLSearchParams) : string :=
  String.concat "&" (map form_pair q).

(** *** Reading a query string *)

(** The value of a hexadecimal digit. *)
Definition hex_value (c : ascii) : option N :=
  let n := N_of_ascii c in
  if between "0" "9" c then Some (n - 48)%N
  else if between "A" "F" c then Some (n - 55)%N
  else if between "a" "f" c then Some (n - 87)%N
  else None.

(** Decoding of a form-encoded text: [+] is a space and [%XY] the byte with
    that code; anything else stands for itself. *)
Fixpoint form_decode (s : string) : string :=
  match s with
  | EmptyString => EmptyString
  | String c rest =>
      if Ascii.eqb c "+" then String " " (form_decode rest)
      else if Ascii.eqb c "%" then
        match rest with
        | String a (String b rest') =>
            match hex_value a, hex_value b with
            | Some h, Some l => String (ascii_of_N (16 * h + l)) (form_decode rest')
            | _, _ => String c (form_decode rest)
            end
        | _ => String c (form_decode rest)
        end
      else String c (form_decode rest)
  end.

(** The pieces of a text between the occurrences of a separator. *)
Fixpoint split (sep : ascii) (s : string) : list string :=
  match s with
  | EmptyString => [EmptyString]
  | String c rest =>
      if Ascii.eqb c sep then EmptyString :: split sep rest
      else match split sep rest with
           | piece :: pieces => String c piece :: pieces
           | [] => [String c EmptyString]
           end
  end.

(** A piece [name=value] is cut at its first [=]; a piece without [=] is a
    name with an empty value. *)
Fixpoint cut (s : string) : string * string :=
  match s with
  | EmptyString => (EmptyString, EmptyString)
  | String c rest =>
      if Ascii.eqb c "=" then (EmptyString, rest)
      else let '(name, value) := cut rest in (String c name, value)
  end.

Definition parse_pair (piece : string) : string * string :=
  let '(name, value) := cut piece in (form_decode name, form_decode value).

(** The parser of [application/x-www-form-urlencoded], by which the receiver
    of a query string reads its name/value pairs: the pieces between [&],
    empty ones left out, each cut at its first [=] and decoded. *)
Definition parse (query : string) : list (string * string) :=
  map parse_pair (filter (fun piece => negb (String.eqb piece EmptyString))
                         (split "&" query)).

End Url.

(** ** The outside world *)

(** What [throw] carries: the [message] of the error object and, for an
    HTTP client error that has a response, [error.response.status]. *)
Record Error : Type := mkError {
  message : string;
  response_status : option Z
}.

Definition new_Error (msg : string) : Error := mkError msg None.

Inductive Outcome (A : Type) : Type :=
| Return (a : A)
| Throw (e : Error).
Arguments Return {A} a.
Arguments Throw {A} e.

(** What a remote service does with a request. *)
Inductive Http (A : Type) : Type :=
| NetworkError (msg : string)
| Response (status : Z) (body : A).
Arguments NetworkError {A} msg.
Arguments Response {A} status body.

Definition is_2xx (status : Z) : bool := (200 <=? status) && (status <? 300).

(** The HTTP client settles with the response on a 2xx status and rejects
    with an error that carries the response otherwise. *)
Definition axios_settle {A : Type} (r : Http A) : Outcome A :=
  match r with
  | NetworkError msg => Throw (mkError msg None)
  | Response status body =>
      if is_2xx status then Return body
      else Throw (mkError ("Request failed with status code " ++ Z_toString status)
                          (Some status))
  end.

(** The body of a token-endpoint response, [response.data]: [null], which
    has no property to read, or a value that is read through the three
    properties the server looks at.  [expires_in] is the lifetime as the
    accounts service states it, a whole number of seconds; [None] stands for
    a body without one, for which the product with 1000 is [NaN]. *)
Inductive TokenData : Type :=
| NullData
| mkTokenData (access_token : Value) (refresh_token : Value) (expires_in : option Z).

Definition access_token (d : TokenData) : Value :=
  match d with mkTokenData a _ _ => a | NullData => Undefined end.

Definition refresh_token (d : TokenData) : Value :=
  match d with mkTokenData _ r _ => r | NullData => Undefined end.

Definition expires_in (d : TokenData) : option Z :=
  match d with mkTokenData _ _ e => e | NullData => None end.

Record ApiRequest : Type := mkApiRequest {
  url : string;
  method : option string;
  data : option Json;
  Authorization : string;
  Content_Type : string
}.

(** A [Date] object: its time value is [NaN] or a whole number of
    milliseconds within the range that [TimeClip] allows. *)
Inductive Date : Type :=
| InvalidDate
| Instant (ms : Z).

Definition TimeClip (t : Z) : Date :=
  if Z.abs t <=? 8640000000000000 then Instant t else InvalidDate.

(** The query of a request to [/callback]: the two parameters the route
    handler reads, each [undefined] when absent.  The route handler writes
    [error] into a template literal and [code] into the form of the
    exchange.  A redirect from the accounts service carries both as plain
    strings, which convert to text without failing, so [on_callback] converts
    them with [Value_toString]; a request whose query was crafted to hold an
    object that cannot be converted is not described. *)
Record Callback : Type := mkCallback {
  query_code : Value;
  query_error : Value
}.

Inductive DiskFile : Type :=
| Missing
| Unreadable (why : string)
| Content (text : string).

(** How a write fails.  [fs.writeFileSync] opens the file for writing, which
    empties it, and then writes the text.  A failure to open leaves the disk
    as it was ([written] is [None]); a failure after that leaves the first
    [n] bytes of the text in the file ([written] is [Some n]). *)
Record WriteFailure : Type := mkWriteFailure {
  failure_message : string;
  written : option nat
}.

Inductive Event : Type :=
| Clock (t : Z)
| Refresh
| TokenPost (form : Url.URLSearchParams) (reply : Http TokenData)
| ApiCall (req : ApiRequest) (reply : Http Json)
| FileWrite (text : string) (err : option string)
| ConsoleError (msg : string)
| Listen (port : Z)
| OpenBrowser (target : string)
| Send (page : string)
| Close.

(** Oracles are indexed by how many times they were consulted before;
    [callback i] is the first request to [/callback] that reaches the [i]-th
    authorization flow within its five minutes, if any.  The last four
    fields are built-ins of the engine. *)
Record World : Type := mkWorld {
  SPOTIFY_CLIENT_ID : string;
  SPOTIFY_CLIENT_SECRET : string;
  clock : nat -> Z;
  token_endpoint : nat -> Url.URLSearchParams -> Http TokenData;
  spotify_api : nat -> ApiRequest -> Http Json;
  write_error : nat -> option WriteFailure;
  callback : nat -> option Callback;
  JSON_parse : string -> Outcome Json;
  JSON_stringify : Json -> string;
  Date_parse : string -> Date;
  Date_toISOString : Z -> string
}.

(** ** Server state *)

Record State : Type := mkState {
  accessToken : Value;
  refreshToken : Value;
  tokenExpiry : option Date;
  listening : bool;
  file : DiskFile;
  log : list Event
}.

Definition is_Clock (e : Event) : bool := match e with Clock _ => true | _ => false end.
Definition is_Refresh (e : Event) : bool := match e with Refresh => true | _ => false end.
Definition is_TokenPost (e : Event) : bool := match e with TokenPost _ _ => true | _ => false end.
Definition is_ApiCall (e : Event) : bool := match e with ApiCall _ _ => true | _ => false end.
Definition is_FileWrite (e : Event) : bool := match e with FileWrite _ _ => true | _ => false end.
Definition is_Listen (e : Event) : bool := match e with Listen _ => true | _ => false end.
Definition is_Close (e : Event) : bool := match e with Close => true | _ => false end.

Definition count (f : Event -> bool) (l : list Event) : nat := List.length (filter f l).

(** The events a computation added when it took [s] to [s']. *)
Definition events_since (s s' : State) : list Event := skipn (List.length (log s)) (log s').

(** ** A state and exception monad *)

Definition M (A : Type) : Type := State -> Outcome A * State.

Definition ret {A : Type} (a : A) : M A := fun s => (Return a, s).

Definition throw {A : Type} (e : Error) : M A := fun s => (Throw e, s).

Definition bind {A B : Type} (c : M A) (k : A -> M B) : M B :=
  fun s =>
    match c s with
    | (Return a, s') => k a s'
    | (Throw e, s') => (Throw e, s')
    end.

Definition try_catch {A : Type} (c : M A) (handler : Error -> M A) : M A :=
  fun s =>
    match c s with
    | (Return a, s') => (Return a, s')
    | (Throw e, s') => handler e s'
    end.

Declare Scope js_scope.
Delimit Scope js_scope with js.
Notation "x <- c ;; k" := (bind c (fun x => k))
  (at level 61, c at next level, right associativity) : js_scope.
Notation "c ;; k" := (bind c (fun _ => k))
  (at level 61, right associativity) : js_scope.
Open Scope js_scope.

Definition gets {A : Type} (f : State -> A) : M A := fun s => (Return (f s), s).

(** [s] with one more event at the end of its log. *)
Definition logged (s : State) (e : Event) : State :=
  mkState (accessToken s) (refreshToken s) (tokenExpiry s)
          (listening s) (file s) (log s ++ [e]).

Definition emit (e : Event) : M unit := fun s => (Return tt, logged s e).

Definition set_accessToken (v : Value) : M unit :=
  fun s => (Return tt,
            mkState v (refreshToken s) (tokenExpiry s) (listening s) (file s) (log s)).

Definition set_refreshToken (v : Value) : M unit :=
  fun s => (Return tt,
            mkState (accessToken s) v (tokenExpiry s) (listening s) (file s) (log s)).

Definition set_tokenExpiry (d : option Date) : M unit :=
  fun s => (Return tt,
            mkState (accessToken s) (refreshToken s) d (listening s) (file s) (log s)).

Definition set_listening (b : bool) : M unit :=
  fun s => (Return tt,
            mkState (accessToken s) (refreshToken s) (tokenExpiry s) b (file s) (log s)).

Definition set_file (f : DiskFile) : M unit :=
  fun s => (Return tt,
            mkState (accessToken s) (refreshToken s) (tokenExpiry s) (listening s) f (log s)).

Definition lift {A : Type} (o : Outcome A) : M A := fun s => (o, s).

(** ** The server *)

Definition SPOTIFY_REDIRECT_URI : string := "http://localhost:8888/callback".

Definition SCOPES : string :=
  String.concat " "
    [ "user-read-private"; "user-read-email"; "user-read-playback-state";
      "user-modify-playback-state"; "user-read-currently-playing";
      "user-library-read"; "user-library-modify"; "user-read-playback-position";
      "user-top-read"; "user-read-recently-played"; "playlist-read-private";
      "playlist-read-collaborative"; "playlist-modify-private";
      "playlist-modify-public"; "user-follow-read"; "user-follow-modify" ].

Definition TypeError (msg : string) : Error := new_Error msg.
Definition RangeError (msg : string) : Error := new_Error msg.

Definition and_then {A B : Type} (o : Outcome A) (k : A -> Outcome B) : Outcome B :=
  match o with
  | Return a => k a
  | Throw e => Throw e
  end.

Definition CannotConvert : Error := TypeError "Cannot convert object to primitive value".

(** [`${v}`], [String(v)] and the conversion of an argument that a built-in
    takes as a string. *)
Definition interpolate (v : Value) : Outcome string :=
  if Value_convertible v then Return (Value_toString v) else Throw CannotConvert.

(** [items.join(sep)]. *)
Definition join (sep : string) (items : list Json) : Outcome string :=
  if forallb convertible items then Return (Array_join sep items) else Throw CannotConvert.

(** [obj.k] for a value that came out of JSON. *)
Definition property (obj : Json) (k : string) : Outcome Value :=
  match obj with
  | JNull => Throw (TypeError ("Cannot read properties of null (reading '" ++ k ++ "')"))
  | JObj entries => Return (lookup k entries)
  | _ => Return Undefined
  end.

(** A property of an object literal as [JSON.stringify] and the HTTP client
    see it: one whose value is [undefined] is left out. *)
Definition field (k : string) (v : Value) : list (string * Json) :=
  match v with Undefined => [] | Val j => [(k, j)] end.

(** The one-item text envelope every handler returns. *)
Definition text_content (text : string) : Json :=
  JObj [("content", JArr [JObj [("type", JStr "text"); ("text", JStr text)]])].

Definition is_text_item (item : Json) : bool :=
  match item with
  | JObj entries =>
      match lookup "type" entries, lookup "text" entries with
      | Val (JStr type), Val (JStr _) =>
          String.eqb type "text" && Nat.eqb (List.length entries) 2
      | _, _ => false
      end
  | _ => false
  end.

(** The shape [{content: [{type: "text", text: <string>}]}]. *)
Definition single_text_envelope (result : Json) : bool :=
  match result with
  | JObj [(key, JArr [item])] => String.eqb key "content" && is_text_item item
  | _ => false
  end.

Record Options : Type := mkOptions {
  opt_method : option string;
  opt_data : option Json
}.

Definition no_options : Options := mkOptions None None.

Definition Arguments : Type := option (list (string * Json)).

(** [args.k] in the dispatcher; [args] is [undefined] when the invocation
    carries no arguments. *)
Definition arg (args : Arguments) (k : string) : Outcome Value :=
  match args with
  | None => Throw (TypeError ("Cannot read properties of undefined (reading '" ++ k ++ "')"))
  | Some entries => Return (lookup k entries)
  end.

(** Reading the first property [k] of [response.data]. *)
Definition data_property (d : TokenData) (k : string) : Outcome unit :=
  match d with
  | NullData => Throw (TypeError ("Cannot read properties of null (reading '" ++ k ++ "')"))
  | mkTokenData _ _ _ => Return tt
  end.

(** What a failed write leaves on disk. *)
Definition left_by (failure : WriteFailure) (text : string) (before : DiskFile) : DiskFile :=
  match written failure with
  | None => before
  | Some n => Content (substring 0 n text)
  end.

(** [Date.now() + expires_in * 1000] as a [Date]; a missing lifetime gives
    [NaN]. *)
Definition expiry_after (now : Z) (lifetime : option Z) : Date :=
  match lifetime with
  | None => InvalidDate
  | Some seconds => TimeClip (now + seconds * 1000)
  end.

(** [now >= expiry] on the time values; a comparison with [NaN] is false. *)
Definition reached (now : Z) (expiry : Date) : bool :=
  match expiry with
  | InvalidDate => false
  | Instant t => t <=? now
  end.

Definition status_is (e : Error) (code : Z) : bool :=
  match response_status e with
  | Some st => st =? code
  | None => false
  end.

Section Server.

Variable w : World.

Definition Date_now : M Z :=
  fun s =>
    let t := clock w (count is_Clock (log s)) in
    (emit (Clock t) ;; ret t) s.

Definition axios_post_token (form : Url.URLSearchParams) : M TokenData :=
  fun s =>
    let reply := token_endpoint w (count is_TokenPost (log s)) form in
    (emit (TokenPost form reply) ;; lift (axios_settle reply)) s.

Definition axios (req : ApiRequest) : M Json :=
  fun s =>
    let reply := spotify_api w (count is_ApiCall (log s)) req in
    (emit (ApiCall req reply) ;; lift (axios_settle reply)) s.

Definition writeFileSync (text : string) : M unit :=
  fun s =>
    let err := write_error w (count is_FileWrite (log s)) in
    (emit (FileWrite text (option_map failure_message err)) ;;
     match err with
     | None => set_file (Content text)
     | Some failure =>
         before <- gets file ;;
         set_file (left_by failure text before) ;;
         throw (new_Error (failure_message failure))
     end) s.

Definition readFileSync : M string :=
  f <- gets file ;;
  match f with
  | Content text => ret text
  | Unreadable why => throw (new_Error why)
  | Missing => throw (new_Error "ENOENT: no such file or directory")
  end.

(** [new Date(v)].  An array or object is first converted to a string,
    which throws when it cannot be converted. *)
Definition new_Date (v : Value) : Outcome Date :=
  match v with
  | Undefined => Return InvalidDate
  | Val JNull => Return (Instant 0)
  | Val (JBool b) => Return (Instant (if b then 1 else 0))
  | Val (JNum NZero) => Return (Instant 0)
  | Val (JNum (NInf _)) => Return InvalidDate
  | Val (JNum (NDec neg s e)) =>
      let m := if 0 <=? e then Zpos s * 10 ^ e else Zpos s / 10 ^ (- e) in
      Return (TimeClip (if neg then - m else m))
  | Val (JStr text) => Return (Date_parse w text)
  | Val j => and_then (interpolate (Val j)) (fun text => Return (Date_parse w text))
  end.

(** *** Credential store *)

Definition loadTokens : M unit :=
  f <- gets file ;;
  match f with
  | Missing => ret tt
  | _ =>
      try_catch
        (text <- readFileSync ;;
         tokens <- lift (JSON_parse w text) ;;
         a <- lift (property tokens "access_token") ;;
         set_accessToken a ;;
         r <- lift (property tokens "refresh_token") ;;
         set_refreshToken r ;;
         e <- lift (property tokens "expires_at") ;;
         d <- lift (new_Date e) ;;
         set_tokenExpiry (Some d))
        (fun error => emit (ConsoleError ("Error loading tokens: " ++ message error)))
  end.

Definition saveTokens : M unit :=
  a <- gets accessToken ;;
  r <- gets refreshToken ;;
  e <- gets tokenExpiry ;;
  match e with
  | None => throw (TypeError "Cannot read properties of null (reading 'toISOString')")
  | Some InvalidDate => throw (RangeError "Invalid time value")
  | Some (Instant t) =>
      let tokens :=
        JObj (field "access_token" a ++ field "refresh_token" r ++
              [("expires_at", JStr (Date_toISOString w t))])%list in
      writeFileSync (JSON_stringify w tokens)
  end.

(** *** Token manager *)

(** The body of the refresh request. *)
Definition refresh_token_form (held : Value) : Url.URLSearchParams :=
  [ ("grant_type", "refresh_token");
    ("refresh_token", Value_toString held);
    ("client_id", SPOTIFY_CLIENT_ID w);
    ("client_secret", SPOTIFY_CLIENT_SECRET w) ].

Definition refreshAccessToken : M unit :=
  emit Refresh ;;
  held <- gets refreshToken ;;
  if negb (truthy held) then
    throw (new_Error "No refresh token available. Please re-authenticate.")
  else
    try_catch
      (lift (interpolate held) ;;
       response <- axios_post_token (refresh_token_form held) ;;
       lift (data_property response "access_token") ;;
       set_accessToken (access_token response) ;;
       now <- Date_now ;;
       set_tokenExpiry (Some (expiry_after now (expires_in response))) ;;
       (if truthy (refresh_token response)
        then set_refreshToken (refresh_token response)
        else ret tt) ;;
       saveTokens)
      (fun error => throw (new_Error ("Failed to refresh token: " ++ message error))).

Definition ensureValidToken : M unit :=
  token <- gets accessToken ;;
  if negb (truthy token) then
    throw (new_Error
      "No access token. Please authenticate first using the spotify_authenticate tool.")
  else
    expiry <- gets tokenExpiry ;;
    match expiry with
    | None => ret tt
    | Some d =>
        now <- Date_now ;;
        if reached now d then refreshAccessToken else ret tt
    end.

(** *** API gateway *)

Definition request_config (endpoint : string) (options : Options) (token : Value)
  : ApiRequest :=
  mkApiRequest ("https://api.spotify.com/v1" ++ endpoint)
               (opt_method options) (opt_data options)
               ("Bearer " ++ Value_toString token) "application/json".

(** The [Authorization] header is a template literal over the access token:
    it is evaluated, and may throw, before the request is made. *)
Definition makeSpotifyRequest (endpoint : string) (options : Options) : M Json :=
  ensureValidToken ;;
  token <- gets accessToken ;;
  lift (interpolate token) ;;
  try_catch
    (axios (request_config endpoint options token))
    (fun error =>
       if status_is error 401 then
         refreshAccessToken ;;
         token' <- gets accessToken ;;
         lift (interpolate token') ;;
         axios (request_config endpoint options token')
       else throw error).

(** *** Authorization flow *)

Definition server_close : M unit := emit Close ;; set_listening false.

Definition authorize_url : string :=
  "https://accounts.spotify.com/authorize?" ++
  "client_id=" ++ SPOTIFY_CLIENT_ID w ++ "&" ++
  "response_type=code&" ++
  "redirect_uri=" ++ Url.encodeURIComponent SPOTIFY_REDIRECT_URI ++ "&" ++
  "scope=" ++ Url.encodeURIComponent SCOPES.

(** The body of the request that exchanges the authorization code. *)
Definition authorization_code_form (code : Value) : Url.URLSearchParams :=
  [ ("grant_type", "authorization_code");
    ("code", Value_toString code);
    ("redirect_uri", SPOTIFY_REDIRECT_URI);
    ("client_id", SPOTIFY_CLIENT_ID w);
    ("client_secret", SPOTIFY_CLIENT_SECRET w) ].

(** The route handler of [/callback].  Its result is what it hands to the
    promise: [Return] for [resolve], [Throw] for [reject]. *)
Definition on_callback (req : Callback) : M (Outcome Json) :=
  let code := query_code req in
  let error := query_error req in
  if truthy error then
    emit (Send ("Authentication failed: " ++ Value_toString error)) ;;
    ret (Throw (new_Error ("Authentication failed: " ++ Value_toString error)))
  else
    try_catch
      (response <- axios_post_token (authorization_code_form code) ;;
       lift (data_property response "access_token") ;;
       set_accessToken (access_token response) ;;
       set_refreshToken (refresh_token response) ;;
       now <- Date_now ;;
       set_tokenExpiry (Some (expiry_after now (expires_in response))) ;;
       saveTokens ;;
       emit (Send "Authentication successful! You can close this window.") ;;
       server_close ;;
       ret (Return (text_content
         "Successfully authenticated with Spotify! You can now use all Spotify tools.")))
      (fun error =>
         emit (Send ("Authentication error: " ++ message error)) ;;
         ret (Throw error)).

(** The timer set for five minutes after the flow started. *)
Definition on_timeout : M (Outcome Json) :=
  server_close ;;
  ret (Throw (new_Error "Authentication timeout")).

(** What the event loop can deliver to a flow. *)
Inductive AuthEvent : Type :=
| Arrives (req : Callback)
| TimerFires.

Definition deliver (ev : AuthEvent) : M (Outcome Json) :=
  match ev with
  | Arrives req => on_callback req
  | TimerFires => on_timeout
  end.

(** The first delivery settles the promise, and every delivery settles: the
    promise takes the outcome of the first callback that arrives within five
    minutes, or of the timer when none does.  Deliveries after that one
    belong to the event loop, not to the awaiting caller.

    The flow is described as it runs when port 8888 is free, that is from a
    state with [listening s = false]: the listener binds and the redirect
    reaches the route handler of this flow.  From a state in which a failed
    flow has left its listener bound, the new bind fails on the server
    object, which this promise does not observe, and a redirect is served by
    the handler of the earlier flow; what the call then comes to is decided
    by the web framework and the runtime, not by [index.js], and is not
    described here. *)
Definition authenticate : M Json :=
  flow <- gets (fun s => count is_Listen (log s)) ;;
  emit (Listen 8888) ;;
  set_listening true ;;
  emit (OpenBrowser authorize_url) ;;
  settled <- deliver (match callback w flow with
                      | Some req => Arrives req
                      | None => TimerFires
                      end) ;;
  lift settled.

(** *** Tool handlers *)

Definition respond (body : Json) : M Json :=
  ret (text_content (JSON_stringify w body)).

Definition getUserProfile : M Json :=
  profile <- makeSpotifyRequest "/me" no_options ;;
  respond profile.

(** The endpoint of each handler is a template literal; it is evaluated,
    and may throw, before [makeSpotifyRequest] is entered. *)
Definition getTopTracks (timeRange limit : Value) : M Json :=
  let timeRange := default (JStr "medium_term") timeRange in
  let limit := default (JNum (int 20)) limit in
  range <- lift (interpolate (Val timeRange)) ;;
  most <- lift (interpolate (Val limit)) ;;
  tracks <- makeSpotifyRequest
    ("/me/top/tracks?time_range=" ++ range ++ "&limit=" ++ most) no_options ;;
  respond tracks.

Definition getTopArtists (timeRange limit : Value) : M Json :=
  let timeRange := default (JStr "medium_term") timeRange in
  let limit := default (JNum (int 20)) limit in
  range <- lift (interpolate (Val timeRange)) ;;
  most <- lift (interpolate (Val limit)) ;;
  artists <- makeSpotifyRequest
    ("/me/top/artists?time_range=" ++ range ++ "&limit=" ++ most) no_options ;;
  respond artists.

Definition getRecentlyPlayed (limit : Value) : M Json :=
  let limit := default (JNum (int 20)) limit in
  most <- lift (interpolate (Val limit)) ;;
  tracks <- makeSpotifyRequest ("/me/player/recently-played?limit=" ++ most) no_options ;;
  respond tracks.

Definition searchTracks (query limit : Value) : M Json :=
  let limit := default (JNum (int 20)) limit in
  text <- lift (interpolate query) ;;
  most <- lift (interpolate (Val limit)) ;;
  results <- makeSpotifyRequest
    ("/search?q=" ++ Url.encodeURIComponent text ++ "&type=track&limit=" ++ most)
    no_options ;;
  respond results.

(** [v.join(',')] where [v] need not be an array. *)
Definition call_join (v : Value) : Outcome string :=
  match v with
  | Undefined => Throw (TypeError "Cannot read properties of undefined (reading 'join')")
  | Val JNull => Throw (TypeError "Cannot read properties of null (reading 'join')")
  | Val (JArr items) => join "," items
  | Val _ => Throw (TypeError "trackIds.join is not a function")
  end.

Definition getTrackFeatures (trackIds : Value) : M Json :=
  ids <- lift (call_join trackIds) ;;
  features <- makeSpotifyRequest ("/audio-features?ids=" ++ ids) no_options ;;
  respond features.

Definition getPlaylists (limit : Value) : M Json :=
  let limit := default (JNum (int 20)) limit in
  most <- lift (interpolate (Val limit)) ;;
  playlists <- makeSpotifyRequest ("/me/playlists?limit=" ++ most) no_options ;;
  respond playlists.

Definition getPlaylistTracks (playlistId limit : Value) : M Json :=
  let limit := default (JNum (int 50)) limit in
  id <- lift (interpolate playlistId) ;;
  most <- lift (interpolate (Val limit)) ;;
  tracks <- makeSpotifyRequest
    ("/playlists/" ++ id ++ "/tracks?limit=" ++ most) no_options ;;
  respond tracks.

Definition createPlaylist (name description isPublic : Value) : M Json :=
  let description := default (JStr EmptyString) description in
  let isPublic := default (JBool false) isPublic in
  profile <- makeSpotifyRequest "/me" no_options ;;
  id <- lift (property profile "id") ;;
  user <- lift (interpolate id) ;;
  playlist <- makeSpotifyRequest
    ("/users/" ++ user ++ "/playlists")
    (mkOptions (Some "POST")
       (Some (JObj (field "name" name ++
                    [("description", description); ("public", isPublic)])%list))) ;;
  respond playlist.

Definition addTracksToPlaylist (playlistId trackUris : Value) : M Json :=
  id <- lift (interpolate playlistId) ;;
  result <- makeSpotifyRequest
    ("/playlists/" ++ id ++ "/tracks")
    (mkOptions (Some "POST") (Some (JObj (field "uris" trackUris)))) ;;
  respond result.

(** [value.toString()] on a value that is neither [undefined] nor [null]:
    the method is looked up on the value, so an own property [toString],
    which is not callable, makes the call itself throw. *)
Definition call_toString (value : Json) : Outcome string :=
  match value with
  | JObj entries =>
      if has_own "toString" entries
      then Throw (TypeError "value.toString is not a function")
      else Return (toString value)
  | JArr items => join "," items
  | _ => Return (toString value)
  end.

(** One round of the [forEach] over [Object.entries(params)]. *)
Definition add_param (queryParams : Url.URLSearchParams) (entry : string * Json)
  : Outcome Url.URLSearchParams :=
  let '(key, value) := entry in
  if negb (is_undefined (Val value)) && negb (is_null (Val value)) then
    match value with
    | JArr items =>
        and_then (join "," items) (fun text => Return (Url.append key text queryParams))
    | _ =>
        and_then (call_toString value)
                 (fun text => Return (Url.append key text queryParams))
    end
  else Return queryParams.

(** [forEach]: the rounds in order, up to the first that throws. *)
Fixpoint forEach {A B : Type} (f : A -> B -> Outcome A) (l : list B) (acc : A) : Outcome A :=
  match l with
  | [] => Return acc
  | x :: rest => and_then (f acc x) (forEach f rest)
  end.

Definition recommendation_params (params : list (string * Json))
  : Outcome Url.URLSearchParams :=
  forEach add_param params [].

Definition Object_entries (params : Arguments) : Outcome (list (string * Json)) :=
  match params with
  | None => Throw (TypeError "Cannot convert undefined or null to object")
  | Some entries => Return (own_properties entries)
  end.

Definition getRecommendations (params : Arguments) : M Json :=
  entries <- lift (Object_entries params) ;;
  queryParams <- lift (recommendation_params entries) ;;
  recommendations <- makeSpotifyRequest
    ("/recommendations?" ++ Url.serialize queryParams) no_options ;;
  respond recommendations.

(** *** Dispatch *)

Definition call_tool (name : string) (args : Arguments) : M Json :=
  if String.eqb name "spotify_authenticate" then authenticate
  else if String.eqb name "get_user_profile" then getUserProfile
  else if String.eqb name "get_top_tracks" then
    time_range <- lift (arg args "time_range") ;;
    limit <- lift (arg args "limit") ;;
    getTopTracks time_range limit
  else if String.eqb name "get_top_artists" then
    time_range <- lift (arg args "time_range") ;;
    limit <- lift (arg args "limit") ;;
    getTopArtists time_range limit
  else if String.eqb name "get_recently_played" then
    limit <- lift (arg args "limit") ;;
    getRecentlyPlayed limit
  else if String.eqb name "search_tracks" then
    query <- lift (arg args "query") ;;
    limit <- lift (arg args "limit") ;;
    searchTracks query limit
  else if String.eqb name "get_track_features" then
    track_ids <- lift (arg args "track_ids") ;;
    getTrackFeatures track_ids
  else if String.eqb name "get_playlists" then
    limit <- lift (arg args "limit") ;;
    getPlaylists limit
  else if String.eqb name "get_playlist_tracks" then
    playlist_id <- lift (arg args "playlist_id") ;;
    limit <- lift (arg args "limit") ;;
    getPlaylistTracks playlist_id limit
  else if String.eqb name "create_playlist" then
    playlist_name <- lift (arg args "name") ;;
    description <- lift (arg args "description") ;;
    public <- lift (arg args "public") ;;
    createPlaylist playlist_name description public
  else if String.eqb name "add_tracks_to_playlist" then
    playlist_id <- lift (arg args "playlist_id") ;;
    track_uris <- lift (arg args "track_uris") ;;
    addTracksToPlaylist playlist_id track_uris
  else if String.eqb name "get_recommendations" then getRecommendations args
  else throw (new_Error ("Unknown tool: " ++ name)).

(** The handler registered for [CallToolRequestSchema]. *)
Definition CallToolRequest (name : string) (args : Arguments) : M Json :=
  try_catch (call_tool name args)
    (fun error => ret (text_content ("Error: " ++ message error))).

(** [new SpotifyMCPServer()] over a given disk. *)
Definition constructor (disk : DiskFile) : State :=
  snd (loadTokens (mkState null null None false disk [])).

End Server.

(** ** The tool list *)

Module Registry.

(** One entry of [inputSchema.properties], with the constraints it declares. *)
Record Property : Type := mkProperty {
  p_name : string;
  p_type : string;
  p_enum : list string;
  p_default : Value;
  p_minimum : option Z;
  p_maximum : option Z;
  p_maxItems : option nat
}.

Record Tool : Type := mkTool {
  t_name : string;
  t_description : string;
  t_properties : list Property;
  t_required : list string
}.

Definition number_property (name : string) (lo hi : option Z) (dflt : Value) : Property :=
  mkProperty name "number" [] dflt lo hi None.

Definition string_property (name : string) : Property :=
  mkProperty name "string" [] Undefined None None None.

Definition array_property (name : string) (maxItems : nat) : Property :=
  mkProperty name "array" [] Undefined None None (Some maxItems).

Definition limit_property (hi dflt : Z) : Property :=
  number_property "limit" (Some 1) (Some hi) (Val (JNum (int dflt))).

Definition time_range_property : Property :=
  mkProperty "time_range" "string" ["short_term"; "medium_term"; "long_term"]
             (str "medium_term") None None None.

Definition tools : list Tool :=
  [ mkTool "spotify_authenticate"
      "Authenticate with Spotify to access your personal data" [] [];
    mkTool "get_user_profile"
      "Get your Spotify user profile information" [] [];
    mkTool "get_top_tracks"
      "Get your top tracks over different time periods"
      [time_range_property; limit_property 50 20] [];
    mkTool "get_top_artists"
      "Get your top artists over different time periods"
      [time_range_property; limit_property 50 20] [];
    mkTool "get_recently_played"
      "Get your recently played tracks"
      [limit_property 50 20] [];
    mkTool "search_tracks"
      "Search for tracks on Spotify"
      [string_property "query"; limit_property 50 20] ["query"];
    mkTool "get_track_features"
      "Get audio features for tracks (danceability, energy, valence, etc.)"
      [array_property "track_ids" 100] ["track_ids"];
    mkTool "get_playlists"
      "Get your playlists"
      [limit_property 50 20] [];
    mkTool "get_playlist_tracks"
      "Get tracks from a specific playlist"
      [string_property "playlist_id"; limit_property 100 50] ["playlist_id"];
    mkTool "create_playlist"
      "Create a new playlist"
      [ string_property "name"; string_property "description";
        mkProperty "public" "boolean" [] (Val (JBool false)) None None None ]
      ["name"];
    mkTool "add_tracks_to_playlist"
      "Add tracks to a playlist"
      [string_property "playlist_id"; array_property "track_uris" 100]
      ["playlist_id"; "track_uris"];
    mkTool "get_recommendations"
      "Get track recommendations based on seed tracks, artists, or genres"
      [ array_property "seed_tracks" 5; array_property "seed_artists" 5;
        array_property "seed_genres" 5; limit_property 100 20;
        number_property "target_danceability" (Some 0) (Some 1) Undefined;
        number_property "target_energy" (Some 0) (Some 1) Undefined;
        number_property "target_valence" (Some 0) (Some 1) Undefined;
        number_property "target_tempo" (Some 0) None Undefined ]
      [] ].

Definition tool_names : list string := map t_name tools.


Fixpoint find_tool (name : string) (l : list Tool) : option Tool :=
  match l with
  | [] => None
  | t :: rest => if String.eqb name (t_name t) then Some t else find_tool name rest
  end.

Fixpoint find_property (key : string) (l : list Property) : option Property :=
  match l with
  | [] => None
  | p :: rest => if String.eqb key (p_name p) then Some p else find_property key rest
  end.

(** The order of a number and an integer bound. *)
Definition Number_compare (n : Number) (z : Z) : comparison :=
  match n with
  | NZero => 0 ?= z
  | NInf neg => if neg then Lt else Gt
  | NDec neg s e =>
      let m := if neg then Zneg s else Zpos s in
      if 0 <=? e then (m * 10 ^ e ?= z) else (m ?= z * 10 ^ (- e))
  end.

Definition below (n : Number) (bound : option Z) : bool :=
  match bound with
  | Some lo => match Number_compare n lo with Lt => true | _ => false end
  | None => false
  end.

Definition above (n : Number) (bound : option Z) : bool :=
  match bound with
  | Some hi => match Number_compare n hi with Gt => true | _ => false end
  | None => false
  end.

(** Does a value break a bound its property declares? *)
Definition out_of_bounds (p : Property) (v : Json) : bool :=
  match v with
  | JNum n => below n (p_minimum p) || above n (p_maximum p)
  | JArr items =>
      match p_maxItems p with
      | Some m => Nat.ltb m (List.length items)
      | None => false
      end
  | _ => false
  end.

(** Does an argument object stay within the tool's declared keys and bounds? *)
Definition conforms (t : Tool) (args : list (string * Json)) : bool :=
  forallb (fun '(key, v) =>
             match find_property key (t_properties t) with
             | Some p => negb (out_of_bounds p v)
             | None => false
             end) args.

End Registry.

(** ** Reading the log *)

Fixpoint api_replies (l : list Event) : list (Http Json) :=
  match l with
  | [] => []
  | ApiCall _ reply :: rest => reply :: api_replies rest
  | _ :: rest => api_replies rest
  end.

Fixpoint api_requests (l : list Event) : list ApiRequest :=
  match l with
  | [] => []
  | ApiCall req _ :: rest => req :: api_requests rest
  | _ :: rest => api_requests rest
  end.

Fixpoint token_replies (l : list Event) : list (Http TokenData) :=
  match l with
  | [] => []
  | TokenPost _ reply :: rest => reply :: token_replies rest
  | _ :: rest => token_replies rest
  end.

Definition refreshes (l : list Event) : nat := count is_Refresh l.

(** The instant [new Date()] yields at [s]. *)
Definition now (w : World) (s : State) : Z := clock w (count is_Clock (log s)).

(** Is a recorded expiry instant at or before the current time? *)
Definition expired (w : World) (s : State) : bool :=
  match tokenExpiry s with
  | Some d => reached (now w s) d
  | None => false
  end.

Definition monotone (w : World) : Prop :=
  forall i j : nat, (i <= j)%nat -> clock w i <= clock w j.

(** ** Concrete worlds and states *)

Module Scenario.

Definition ok (body : Json) : Http Json := Response 200 body.

Definition granted (access : string) (refresh : Value) (lifetime : Z) : Http TokenData :=
  Response 200 (mkTokenData (str access) refresh (Some lifetime)).

Definition start : Z := 1700000000000.

(** A world that plays the given replies in order and refuses connections
    once they are used up; the clock advances one millisecond per reading,
    the disk accepts every write.  The engine oracles are simple stand-ins. *)
Definition world (tokens : list (Http TokenData)) (api : list (Http Json))
                 (request : option Callback) : World :=
  mkWorld "client-id" "client-secret"
    (fun i => start + Z.of_nat i)
    (fun i _ => nth i tokens (NetworkError "connect ECONNREFUSED"))
    (fun i _ => nth i api (NetworkError "connect ECONNREFUSED"))
    (fun _ => None)
    (fun flow => match flow with O => request | S _ => None end)
    (fun _ => Throw (new_Error "Unexpected end of JSON input"))
    toString
    (fun _ => InvalidDate)
    Z_toString.

(** Nothing answers. *)
Definition quiet : World := world [] [] None.

(** The token endpoint grants one refresh and sends no new refresh token. *)
Definition granting : World := world [granted "AT-1" Undefined 3600] [] None.

Definition profile : Json := JObj [("id", JStr "user-1")].

(** The Web API answers one request. *)
Definition serving : World := world [] [ok profile] None.

Definition state (access refresh : Value) (expiry : option Date) : State :=
  mkState access refresh expiry false Missing [].

(** A token that is good for another hour. *)
Definition fresh : State :=
  state (str "AT-0") (str "RT-0") (Some (Instant (start + 3600000))).

(** A token whose recorded expiry passed a second ago. *)
Definition stale : State :=
  state (str "AT-0") (str "RT-0") (Some (Instant (start - 1000))).

Definition rock : list (string * Json) :=
  [("seed_genres", JArr [JStr "rock"]); ("target_energy", JNum (NDec false 8 (-1)))].

Definition denial : Json :=
  JObj [("error", JObj [("status", JNum (int 401));
                        ("message", JStr "The access token expired")])].

(** The upstream rejects the first request with 401 and accepts the retry;
    the token endpoint grants every refresh. *)
Definition retry_world : World :=
  world [granted "AT-1" Undefined 3600; granted "AT-2" Undefined 3600]
        [Response 401 denial; ok profile] None.

(** Arguments outside the declared schema of [get_recommendations]: six
    seed genres where five are allowed, a limit of 1000 where 100 is the
    maximum, an energy of 7 where 1 is the maximum, and a key the schema does
    not declare. *)
Definition excess : list (string * Json) :=
  [ ("seed_genres", JArr [JStr "rock"; JStr "pop"; JStr "jazz"; JStr "folk";
                          JStr "soul"; JStr "funk"]);
    ("limit", JNum (int 1000));
    ("target_energy", JNum (int 7));
    ("market", JStr "SE");
    ("seed_tracks", JNull) ].

(** One argument that can be forwarded and one that cannot be converted to a
    string: an object with a property [toString] of its own. *)
Definition unconvertible : list (string * Json) :=
  [ ("seed_genres", JArr [JStr "rock"]);
    ("target_energy", JObj [("toString", JNull)]) ].

(** The browser comes back with a code, and the token endpoint refuses it. *)
Definition refused_world : World :=
  world [Response 400 (mkTokenData Undefined Undefined None)] []
        (Some (mkCallback (str "code-1") Undefined)).

(** A flow that is waiting for its callback. *)
Definition awaiting : State :=
  mkState null null None true Missing [Listen 8888].

(** The upstream addresses requested by one invocation on a fresh token. *)
Definition requested (name : string) (args : list (string * Json)) : list string :=
  map url (api_requests (log (snd (CallToolRequest serving name (Some args) fresh)))).

Definition recommendations_run : Outcome Json * State :=
  CallToolRequest serving "get_recommendations" (Some rock) fresh.

Definition top_tracks_run : Outcome Json * State :=
  CallToolRequest serving "get_top_tracks" (Some []) fresh.

Definition retry_when_fresh : Outcome Json * State :=
  makeSpotifyRequest retry_world "/me" no_options fresh.

Definition retry_when_stale : Outcome Json * State :=
  makeSpotifyRequest retry_world "/me" no_options stale.

Definition excess_run : Outcome Json * State :=
  getRecommendations serving (Some excess) fresh.

Definition unconvertible_run : Outcome Json * State :=
  getRecommendations serving (Some unconvertible) fresh.

End Scenario.

(** ** The recommendation query in the words of its description *)

(** How one argument value appears in the query: an array is joined with
    commas, anything else is converted to a string. *)
Definition rendered (value : Json) : string :=
  match value with
  | JArr items => String.concat "," (map join_item items)
  | _ => toString value
  end.

(** Every supplied key whose value is not [null], in the order supplied,
    with its value rendered. *)
Definition forwarded (params : list (string * Json)) : list (string * string) :=
  map (fun entry => (fst entry, rendered (snd entry)))
      (filter (fun entry => negb (is_null (Val (snd entry)))) params).

(** Can every supplied value be converted to a string? *)
Definition all_convertible (params : list (string * Json)) : bool :=
  forallb (fun entry => convertible (snd entry)) params.

(** ** The forwarding of arguments, read literally *)

(** The forwarding rule read literally: on a valid token (one that is held,
    can be written into the header and has not expired), every supplied key
    whose value is not [null] is a name in the query of a request that the
    handler sends upstream. *)
Definition forwards_every_argument_claim : Prop :=
  forall (w : World) (params : list (string * Json))
         (s : State) (r : Outcome Json) (s' : State) (key : string) (value : Json),
    truthy (accessToken s) = true ->
    Value_convertible (accessToken s) = true ->
    expired w s = false ->
    getRecommendations w (Some params) s = (r, s') ->
    In (key, value) params ->
    value <> JNull ->
    exists req query,
      In req (api_requests (events_since s s')) /\
      url req = "https://api.spotify.com/v1/recommendations?" ++ query /\
      In key (map fst (Url.parse query)).

(** ** The retry rule, read literally *)

(** The retry rule read literally: whenever the first upstream reply of a
    call is a 401 and its retry is answered 200, the call made one refresh in
    all, two upstream requests, and returned the body of the second. *)
Definition single_refresh_claim : Prop :=
  forall (w : World) (endpoint : string) (options : Options)
         (s : State) (r : Outcome Json) (s' : State) (body1 body : Json),
    makeSpotifyRequest w endpoint options s = (r, s') ->
    nth_error (api_replies (events_since s s')) 0 = Some (Response 401 body1) ->
    nth_error (api_replies (events_since s s')) 1 = Some (Response 200 body) ->
    refreshes (events_since s s') = 1%nat /\
    List.length (api_replies (events_since s s')) = 2%nat /\
    r = Return body.

(** A successful refresh, spelled out. *)
Definition refreshed (w : World) (s s' : State) (reply : Http TokenData) : Prop :=
  exists status response lifetime,
    reply = Response status response /\ is_2xx status = true /\
    truthy (refreshToken s) = true /\
    expires_in response = Some lifetime /\
    accessToken s' = access_token response /\
    tokenExpiry s' = Some (Instant (now w s + lifetime * 1000)) /\
    refreshToken s' =
      (if truthy (refresh_token response) then refresh_token response
       else refreshToken s).

(** ** What is on disk, and what goes over the wire *)

(** The object [saveTokens] writes for the given fields. *)
Definition token_record (w : World) (access refresh : Value) (t : Z) : Json :=
  JObj (field "access_token" access ++ field "refresh_token" refresh ++
        [("expires_at", JStr (Date_toISOString w t))])%list.

(** The engine reads back the record it wrote for these fields: parsing the
    text gives the object again, and the ISO text of the instant parses to
    the instant. *)
Definition reads_back (w : World) (access refresh : Value) (t : Z) : Prop :=
  JSON_parse w (JSON_stringify w (token_record w access refresh t))
    = Return (token_record w access refresh t) /\
  Date_parse w (Date_toISOString w t) = Instant t.

(** The token triple of a state. *)
Definition tokens_of (s : State) : Value * Value * option Date :=
  (accessToken s, refreshToken s, tokenExpiry s).

(** How often a character occurs in a string. *)
Fixpoint occurrences (c : ascii) (text : string) : nat :=
  match text with
  | EmptyString => O
  | String c' rest => ((if Ascii.eqb c c' then 1 else 0) + occurrences c rest)%nat
  end.

(** The last upstream reply in a run of events. *)
Definition last_reply (evs : list Event) : option (Http Json) :=
  List.last (map Some (api_replies evs)) None.

Definition last_request (evs : list Event) : option ApiRequest :=
  List.last (map Some (api_requests evs)) None.


(** The property the dispatcher reads first for each tool that takes
    arguments. *)
Definition first_argument (name : string) : option string :=
  if String.eqb name "get_top_tracks" then Some "time_range"
  else if String.eqb name "get_top_artists" then Some "time_range"
  else if String.eqb name "get_recently_played" then Some "limit"
  else if String.eqb name "search_tracks" then Some "query"
  else if String.eqb name "get_track_features" then Some "track_ids"
  else if String.eqb name "get_playlists" then Some "limit"
  else if String.eqb name "get_playlist_tracks" then Some "playlist_id"
  else if String.eqb name "create_playlist" then Some "name"
  else if String.eqb name "add_tracks_to_playlist" then Some "playlist_id"
  else None.


(** ** More concrete worlds and states *)

Module Cases.

(** The token endpoint grants a refresh without saying how long it lasts. *)
Definition timeless : World :=
  Scenario.world [Response 200 (mkTokenData (str "AT-1") Undefined None)] [] None.

(** An engine stub that reads every text back as one given record and every
    date text as one given instant; otherwise like [Scenario.world]. *)
Definition keeping (record : Json) (instant : Z) (tokens : list (Http TokenData)) : World :=
  mkWorld "client-id" "client-secret"
    (fun i => Scenario.start + Z.of_nat i)
    (fun i _ => nth i tokens (NetworkError "connect ECONNREFUSED"))
    (fun _ _ => NetworkError "connect ECONNREFUSED")
    (fun _ => None)
    (fun _ => None)
    (fun _ => Return record)
    toString
    (fun _ => Instant instant)
    Z_toString.

Definition fresh_record : Json :=
  JObj [ ("access_token", JStr "AT-0"); ("refresh_token", JStr "RT-0");
         ("expires_at", JStr "1700003600000") ].

(** Reads back the record of [Scenario.fresh]. *)
Definition archive : World := keeping fresh_record (Scenario.start + 3600000) [].

Definition renewed_record : Json :=
  JObj [ ("access_token", JStr "AT-1"); ("refresh_token", JStr "RT-0");
         ("expires_at", JStr "1700003600000") ].

(** Grants one refresh and reads back the record that refresh leaves. *)
Definition renewing : World :=
  keeping renewed_record (Scenario.start + 3600000)
          [Scenario.granted "AT-1" Undefined 3600].

(** The token endpoint grants one refresh, and the disk is full: every write
    fails after the file was opened, with nothing written. *)
Definition full_disk : World :=
  mkWorld "client-id" "client-secret"
    (fun i => Scenario.start + Z.of_nat i)
    (fun i _ => nth i [Scenario.granted "AT-1" Undefined 3600]
                      (NetworkError "connect ECONNREFUSED"))
    (fun _ _ => NetworkError "connect ECONNREFUSED")
    (fun _ => Some (mkWriteFailure "ENOSPC: no space left on device, write" (Some O)))
    (fun _ => None)
    (fun _ => Throw (new_Error "Unexpected end of JSON input"))
    toString
    (fun _ => InvalidDate)
    Z_toString.

(** The Web API answers with "too many requests". *)
Definition failing : World :=
  Scenario.world [] [Response 429 Scenario.denial] None.

(** The Web API answers the profile request and then creates the playlist. *)
Definition new_playlist : Json := JObj [("id", JStr "pl-1"); ("name", JStr "Road trip")].

Definition creating : World :=
  Scenario.world [] [Scenario.ok Scenario.profile; Response 201 new_playlist] None.

Definition create_run : Outcome Json * State :=
  call_tool creating "create_playlist" (Some [("name", JStr "Road trip")]) Scenario.fresh.

(** No credentials at all, as after a start without a token file. *)
Definition signed_out : State := Scenario.state null null None.

(** A token file may hold any JSON value in place of a token.  Here both
    tokens are objects with a property [toString] of their own, and the
    recorded expiry lies in the future. *)
Definition unwritable : State :=
  Scenario.state (Val (JObj [("toString", JNull)])) (Val (JObj [("toString", JNull)]))
                 (Some (Instant (Scenario.start + 3600000))).

(** The request that creates the playlist of [create_run]. *)
Definition playlist_post : ApiRequest :=
  request_config "/users/user-1/playlists"
    (mkOptions (Some "POST")
       (Some (JObj [("name", JStr "Road trip"); ("description", JStr EmptyString);
                    ("public", JBool false)])))
    (str "AT-0").

(** The browser comes back with a code and the token endpoint grants it. *)
Definition signing_in : World :=
  Scenario.world [Scenario.granted "AT-1" (str "RT-1") 3600] []
                 (Some (mkCallback (str "code-1") Undefined)).

Definition sign_in_run : Outcome Json * State := authenticate signing_in signed_out.

(** The code is granted, but the response does not say how long the token
    lasts. *)
Definition half_granting : World :=
  Scenario.world [Response 200 (mkTokenData (str "AT-1") Undefined None)] []
                 (Some (mkCallback (str "code-1") Undefined)).

Definition half_run : Outcome Json * State := authenticate half_granting Scenario.fresh.

(** A token file written without an expiry, and an engine that reads it. *)
Definition undated_record : Json := JObj [("access_token", JStr "AT-0")].

Definition undated : World := keeping undated_record 0 [].

End Cases.

(** * Properties *)

(** ** Logs *)

Lemma skipn_length_app (A : Type) (l l' : list A) :
  skipn (List.length l) (l ++ l') = l'.
Proof. induction l; simpl; auto. Qed.

Lemma events_since_app (s s' : State) (evs : list Event) :
  log s' = (log s ++ evs)%list -> events_since s s' = evs.
Proof. intros H. unfold events_since. rewrite H. apply skipn_length_app. Qed.

Lemma count_app (f : Event -> bool) (l l' : list Event) :
  count f (l ++ l') = (count f l + count f l')%nat.
Proof. unfold count. rewrite filter_app, length_app. reflexivity. Qed.

Lemma refreshes_app (l l' : list Event) :
  refreshes (l ++ l') = (refreshes l + refreshes l')%nat.
Proof. apply count_app. Qed.

Lemma api_replies_app (l l' : list Event) :
  api_replies (l ++ l') = (api_replies l ++ api_replies l')%list.
Proof.
  induction l as [|e l IH]; simpl; auto.
  destruct e; simpl; auto. now rewrite IH.
Qed.

Lemma token_replies_app (l l' : list Event) :
  token_replies (l ++ l') = (token_replies l ++ token_replies l')%list.
Proof.
  induction l as [|e l IH]; simpl; auto.
  destruct e; simpl; auto. now rewrite IH.
Qed.

(** ** Primitive operations *)

Lemma Date_now_run (w : World) (s : State) :
  Date_now w s = (Return (now w s), logged s (Clock (now w s))).
Proof. reflexivity. Qed.

Lemma axios_run (w : World) (req : ApiRequest) (s : State) :
  let reply := spotify_api w (count is_ApiCall (log s)) req in
  axios w req s = (axios_settle reply, logged s (ApiCall req reply)).
Proof. reflexivity. Qed.

Lemma axios_post_token_run (w : World) (form : Url.URLSearchParams) (s : State) :
  let reply := token_endpoint w (count is_TokenPost (log s)) form in
  axios_post_token w form s = (axios_settle reply, logged s (TokenPost form reply)).
Proof. reflexivity. Qed.

(** What [saveTokens] does to the state: the three token fields and the
    listener are kept, at most one write is logged. *)
Lemma saveTokens_inv (w : World) (s : State) (r : Outcome unit) (s' : State) :
  saveTokens w s = (r, s') ->
  accessToken s' = accessToken s /\ refreshToken s' = refreshToken s /\
  tokenExpiry s' = tokenExpiry s /\ listening s' = listening s /\
  (r = Return tt -> exists t, tokenExpiry s = Some (Instant t)) /\
  exists evs, log s' = (log s ++ evs)%list /\ refreshes evs = 0%nat /\
              api_replies evs = [] /\ token_replies evs = [] /\ count is_Close evs = 0%nat.
Proof.
  unfold saveTokens, bind, gets, throw. simpl.
  destruct (tokenExpiry s) as [[|t]|] eqn:E; simpl.
  - intros H; inversion H; subst. repeat split; auto; try discriminate.
    exists []. rewrite app_nil_r. repeat split; auto.
  - unfold writeFileSync, bind, emit. simpl.
    destruct (write_error w (count is_FileWrite (log s))) as [msg|]; simpl;
      intros H; inversion H; subst; simpl; repeat split; auto; try discriminate;
      try (eexists; reflexivity);
      (eexists; split; [reflexivity | repeat split; reflexivity]).
  - intros H; inversion H; subst. repeat split; auto; try discriminate.
    exists []. rewrite app_nil_r. repeat split; auto.
Qed.

Lemma count_logged (f : Event -> bool) (s : State) (e : Event) :
  count f (log (logged s e)) = (count f (log s) + if f e then 1 else 0)%nat.
Proof. simpl. rewrite count_app. unfold count. simpl. destruct (f e); reflexivity. Qed.

Lemma TimeClip_Instant (t t' : Z) : TimeClip t = Instant t' -> t' = t.
Proof. unfold TimeClip. destruct (Z.abs t <=? _); congruence. Qed.

Lemma interpolate_Return (v : Value) :
  Value_convertible v = true -> interpolate v = Return (Value_toString v).
Proof. unfold interpolate. now intros ->. Qed.

Lemma interpolate_Throw (v : Value) (e : Error) :
  interpolate v = Throw e -> Value_convertible v = false /\ e = CannotConvert.
Proof.
  unfold interpolate. destruct (Value_convertible v); [discriminate|].
  intros [= <-]. now split.
Qed.

Lemma interpolate_convertible (v : Value) (text : string) :
  interpolate v = Return text -> Value_convertible v = true.
Proof.
  unfold interpolate. destruct (Value_convertible v); [reflexivity|discriminate].
Qed.

Lemma interpolate_inv (v : Value) (text : string) :
  interpolate v = Return text -> text = Value_toString v.
Proof.
  unfold interpolate. destruct (Value_convertible v); [|discriminate].
  now intros [= <-].
Qed.

(** ** Inversion of monadic computations *)

Lemma bind_inv (A B : Type) (c : M A) (k : A -> M B) (s : State)
      (r : Outcome B) (s' : State) :
  bind c k s = (r, s') ->
  (exists a s1, c s = (Return a, s1) /\ k a s1 = (r, s')) \/
  (exists e, c s = (Throw e, s') /\ r = Throw e).
Proof.
  unfold bind. destruct (c s) as [[a|e] s1]; intros H.
  - left. eauto.
  - right. inversion H; subst. eauto.
Qed.

Lemma try_catch_inv (A : Type) (c : M A) (h : Error -> M A) (s : State)
      (r : Outcome A) (s' : State) :
  try_catch c h s = (r, s') ->
  (exists a, c s = (Return a, s') /\ r = Return a) \/
  (exists e s1, c s = (Throw e, s1) /\ h e s1 = (r, s')).
Proof.
  unfold try_catch. destruct (c s) as [[a|e] s1]; intros H.
  - left. inversion H; subst. eauto.
  - right. eauto.
Qed.

Ltac prim H :=
  first [ rewrite Date_now_run in H
        | rewrite axios_run in H
        | rewrite axios_post_token_run in H
        | unfold emit, gets, throw, ret, lift, set_accessToken, set_refreshToken,
            set_tokenExpiry, set_listening, set_file in H ];
  cbv beta zeta in H;
  inversion H; clear H;
  repeat match goal with
         | E : _ = ?x |- _ => is_var x; subst x
         end.

Ltac subst_var H :=
  lazymatch type of H with
  | ?x = _ => tryif is_var x then subst x else idtac
  | _ => idtac
  end.

Ltac minv H :=
  lazymatch type of H with
  | bind _ _ _ = _ =>
      let a := fresh "a" in
      let s1 := fresh "s" in
      let e := fresh "e" in
      let H1 := fresh "H" in
      let H2 := fresh "H" in
      apply bind_inv in H;
      destruct H as [(a & s1 & H1 & H2) | (e & H1 & H2)];
      [ minv H1; try minv H2 | subst_var H2; minv H1 ]
  | try_catch _ _ _ = _ =>
      let a := fresh "a" in
      let s1 := fresh "s" in
      let e := fresh "e" in
      let H1 := fresh "H" in
      let H2 := fresh "H" in
      apply try_catch_inv in H;
      destruct H as [(a & H1 & H2) | (e & s1 & H1 & H2)];
      [ subst_var H2; minv H1 | minv H1; try minv H2 ]
  | emit _ _ = _ => prim H
  | gets _ _ = _ => prim H
  | throw _ _ = _ => prim H
  | ret _ _ = _ => prim H
  | lift _ _ = _ => prim H
  | set_accessToken _ _ = _ => prim H
  | set_refreshToken _ _ = _ => prim H
  | set_tokenExpiry _ _ = _ => prim H
  | set_listening _ _ = _ => prim H
  | set_file _ _ = _ => prim H
  | Date_now _ _ = _ => prim H
  | axios _ _ _ = _ => prim H
  | axios_post_token _ _ _ = _ => prim H
  | _ => idtac
  end.

Ltac norm :=
  unfold now, logged in *; cbn [log accessToken refreshToken tokenExpiry listening file] in *;
  repeat rewrite count_app in *;
  cbn [count filter List.length is_Clock is_Refresh is_TokenPost is_ApiCall
       is_FileWrite is_Listen is_Close] in *;
  rewrite ?Nat.add_0_r in *.

Ltac split_if :=
  match goal with
  | H : (if ?b then _ else _) _ = _ |- _ => destruct b eqn:?; minv H
  end.

Lemma axios_settle_Return (A : Type) (reply : Http A) (a : A) :
  axios_settle reply = Return a ->
  exists status, reply = Response status a /\ is_2xx status = true.
Proof.
  destruct reply as [msg|status body]; simpl; [discriminate|].
  destruct (is_2xx status) eqn:E; [|discriminate].
  intros H; inversion H; subst. eauto.
Qed.

Lemma refresh_inv (w : World) (s : State) (r : Outcome unit) (s' : State) :
  refreshAccessToken w s = (r, s') ->
  listening s' = listening s /\
  exists evs,
    log s' = (log s ++ Refresh :: evs)%list /\
    refreshes evs = 0%nat /\ api_replies evs = [] /\ count is_Close evs = 0%nat /\
    (r = Return tt ->
     let reply := token_endpoint w (count is_TokenPost (log s))
                                 (refresh_token_form w (refreshToken s)) in
     token_replies evs = [reply] /\ refreshed w s s' reply).
Proof.
  intros H. unfold refreshAccessToken in H. minv H.
  match goal with H : (if _ then _ else _) _ = _ |- _ => rename H into Hif end.
  destruct (truthy (refreshToken s)) eqn:Held; cbn [negb] in Hif; minv Hif.
  1:{ (* the whole body ran *)
    match goal with H : saveTokens _ _ = _ |- _ =>
      apply saveTokens_inv in H;
      destruct H as (Ha & Hr & He & Hl & Hok & evs & Hlog & Hnr & Hna & Hnt & Hnc) end.
    match goal with H : axios_settle _ = _ |- _ =>
      apply axios_settle_Return in H; destruct H as (status & Hreply & H2xx) end.
    norm.
    match type of Hreply with _ = Response _ ?d => rename d into response end.
    match goal with H : (if truthy _ then _ else _) _ = (_, ?st) |- _ =>
      rename st into s0; rename H into Hmid end.
    assert (Hs0 : accessToken s0 = access_token response /\
                  tokenExpiry s0 = Some (expiry_after (clock w (count is_Clock (log s))) (expires_in response)) /\
                  listening s0 = listening s /\
                  refreshToken s0 = (if truthy (refresh_token response) then refresh_token response
                                     else refreshToken s) /\
                  log s0 = (log s ++ [Refresh;
                                      TokenPost (refresh_token_form w (refreshToken s))
                                                (Response status response);
                                      Clock (clock w (count is_Clock (log s)))])%list).
    { destruct (truthy (refresh_token response)); minv Hmid; cbn; rewrite <- !app_assoc; cbn;
      rewrite Hreply; repeat split; auto. }
    destruct Hs0 as (Hresponse & He0 & Hl0 & Hr0 & Hlog0).
    split; [congruence|].
    exists (TokenPost (refresh_token_form w (refreshToken s)) (Response status response) ::
            Clock (clock w (count is_Clock (log s))) :: evs).
    split; [rewrite Hlog, Hlog0, <- app_assoc; reflexivity|].
    split; [|split; [|split]]; auto.
    intros Hret. cbv zeta. rewrite Hreply. split; [simpl; now rewrite Hnt|].
    destruct (Hok Hret) as (t & Ht). rewrite He0 in Ht.
    destruct (expires_in response) as [lifetime|] eqn:Elife; simpl in Ht; [|discriminate].
    injection Ht as Ht. 
    exists status, response, lifetime.
    repeat split; auto; try congruence.
    rewrite He, He0. simpl. rewrite Ht. apply TimeClip_Instant in Ht. now subst t. }
  all: try discriminate.
  all: try (exfalso; split_if; discriminate).
  all: try (match goal with H : saveTokens _ _ = _ |- _ =>
      apply saveTokens_inv in H;
      destruct H as (Ha & Hr & He & Hl & Hok & evs & Hlog & Hnr & Hna & Hnt & Hnc) end).
  all: try (match goal with H : (if truthy ?b then _ else _) _ = _ |- _ =>
      destruct (truthy b); minv H end).
  all: norm.
  all: (split; [congruence|]).
  all: try (eexists; split; [rewrite ?Hlog; cbn [log]; rewrite <- ?app_assoc; cbn [app]; reflexivity|];
       repeat split; auto; try discriminate).
Qed.

(** When nothing stands in its way, the refresh completes. *)
Lemma refresh_succeeds (w : World) (s : State) (status : Z) (response : TokenData)
      (lifetime : Z) :
  truthy (refreshToken s) = true ->
  token_endpoint w (count is_TokenPost (log s)) (refresh_token_form w (refreshToken s))
    = Response status response ->
  is_2xx status = true ->
  expires_in response = Some lifetime ->
  Z.abs (now w s + lifetime * 1000) <= 8640000000000000 ->
  write_error w (count is_FileWrite (log s)) = None ->
  Value_convertible (refreshToken s) = true ->
  exists s', refreshAccessToken w s = (Return tt, s').
Proof.
  intros Held Hreply H2xx Hlife Hrange Hwrite Hconv.
  destruct (refreshAccessToken w s) as [[[]|e] s'] eqn:E; [eauto|].
  exfalso. unfold refreshAccessToken in E. minv E.
  match goal with H : (if _ then _ else _) _ = _ |- _ => rename H into Hif end.
  rewrite Held in Hif. cbn [negb] in Hif. minv Hif.
  all: try match goal with H : interpolate _ = Throw _ |- _ =>
             apply interpolate_Throw in H; destruct H as [H _]; congruence end.
  all: norm; fold (refresh_token_form w (refreshToken s)) in *.
  all: try match goal with H : axios_settle _ = _ |- _ =>
             rewrite Hreply in H; cbn [axios_settle] in H; rewrite H2xx in H;
             try discriminate; injection H as <- end.
  all: try (split_if; discriminate).
  all: try match goal with H : data_property ?d _ = Throw _ |- _ =>
             destruct d; cbn in Hlife, H; discriminate end.
  all: match goal with H : (if truthy ?b then _ else _) _ = _ |- _ =>
         destruct (truthy b); minv H end.
  all: match goal with H : saveTokens _ _ = _ |- _ =>
         unfold saveTokens in H; minv H end.
  all: cbn [tokenExpiry accessToken refreshToken log] in *.
  all: rewrite Hlife in *; cbn [expiry_after] in *; unfold TimeClip in *.
  all: apply Z.leb_le in Hrange; rewrite Hrange in *.
  all: match goal with H : writeFileSync _ _ _ = _ |- _ =>
         unfold writeFileSync in H; cbv zeta in H; minv H end.
  all: norm.
  all: match goal with H : match write_error _ _ with _ => _ end _ = _ |- _ =>
         rewrite Hwrite in H; minv H end.
Qed.

(** With a token held and the recorded expiry reached, [ensureValidToken] is
    the clock reading followed by [refreshAccessToken]. *)
Lemma ensure_expired_refreshes (w : World) (s : State) :
  truthy (accessToken s) = true ->
  expired w s = true ->
  ensureValidToken w s = refreshAccessToken w (logged s (Clock (now w s))).
Proof.
  intros Held Hx. unfold expired in Hx.
  unfold ensureValidToken, bind at 1, gets. rewrite Held. cbn [negb].
  unfold bind at 1. destruct (tokenExpiry s) as [d|]; [|discriminate].
  unfold bind at 1. rewrite Date_now_run, Hx. reflexivity.
Qed.

Lemma ensure_inv (w : World) (s : State) (r : Outcome unit) (s' : State) :
  ensureValidToken w s = (r, s') ->
  listening s' = listening s /\
  (truthy (accessToken s) = false ->
   r = Throw (new_Error
     "No access token. Please authenticate first using the spotify_authenticate tool.") /\
   s' = s) /\
  (r = Return tt -> truthy (accessToken s) = true) /\
  (truthy (accessToken s) = true -> expired w s = false -> r = Return tt) /\
  exists evs,
    log s' = (log s ++ evs)%list /\
    api_replies evs = [] /\ count is_Close evs = 0%nat /\
    refreshes evs = (if truthy (accessToken s) && expired w s then 1 else 0)%nat /\
    (r = Return tt ->
     if expired w s then
       let reply := token_endpoint w (count is_TokenPost (log s))
                                   (refresh_token_form w (refreshToken s)) in
       token_replies evs = [reply] /\
       refreshed w (logged s (Clock (now w s))) s' reply
     else
       token_replies evs = [] /\ accessToken s' = accessToken s /\
       refreshToken s' = refreshToken s /\ tokenExpiry s' = tokenExpiry s).
Proof.
  intros H. unfold ensureValidToken in H. minv H.
  match goal with H : (if _ then _ else _) _ = _ |- _ => rename H into Hif end.
  unfold expired.
  destruct (truthy (accessToken s)) eqn:Held; cbn [negb andb] in *.
  2:{ minv Hif. repeat split; auto; try discriminate.
      exists []. rewrite app_nil_r. repeat split; auto. discriminate. }
  minv Hif.
  match goal with H : (match tokenExpiry s with _ => _ end) _ = _ |- _ => rename H into Hm end.
  destruct (tokenExpiry s) as [d|] eqn:Exp.
  2:{ minv Hm. repeat split; auto; try discriminate.
      exists []. rewrite app_nil_r. repeat split; auto. }
  minv Hm.
  match goal with H : (if _ then _ else _) _ = _ |- _ => rename H into Hif end.
  destruct (reached (now w s) d) eqn:R.
  - apply refresh_inv in Hif.
    destruct Hif as (Hl & evs & Hlog & Hr & Hapi & Hcl & Hok).
    repeat split; auto; try discriminate.
    exists (Clock (now w s) :: Refresh :: evs).
    split; [rewrite Hlog; cbn [log logged]; rewrite <- app_assoc; reflexivity|].
    split; [|split; [|split]]; auto.
    + unfold refreshes in *. unfold count in *. simpl. now rewrite Hr.
    + intros Hret. destruct (Hok Hret) as (Htr & Href).
      revert Htr Href. norm. intros Htr Href.
      cbn zeta. split; [simpl; exact Htr | exact Href].
  - minv Hif. repeat split; auto; try discriminate.
    exists [Clock (now w s)]. repeat split; auto.
Qed.

(** ** Token manager *)

(** C9.  When an access token is held and no expiry instant is recorded
    (the field is [null], or the date is invalid), [ensureValidToken] returns
    normally without entering [refreshAccessToken] and without contacting the
    token endpoint; the three token fields are left as they were.  No
    assumption is made on the clock, so the age of the token plays no role. *)
Theorem ensureValid_without_expiry_never_refreshes (w : World) (s : State) :
  truthy (accessToken s) = true ->
  tokenExpiry s = None \/ tokenExpiry s = Some InvalidDate ->
  exists s',
    ensureValidToken w s = (Return tt, s') /\
    refreshes (events_since s s') = 0%nat /\
    token_replies (events_since s s') = [] /\
    accessToken s' = accessToken s /\
    refreshToken s' = refreshToken s /\
    tokenExpiry s' = tokenExpiry s.
Proof.
  intros Held Hexp.
  destruct (ensureValidToken w s) as [r s'] eqn:E.
  pose proof (ensure_inv w s r s' E) as (_ & _ & _ & Hprog & evs & Hlog & _ & _ & Hr & Hok).
  assert (Hne : expired w s = false).
  { unfold expired. destruct Hexp as [-> | ->]; reflexivity. }
  rewrite (Hprog Held Hne) in *.
  exists s'. rewrite Hne, andb_false_r in *.
  rewrite (events_since_app s s' evs Hlog).
  destruct (Hok eq_refl) as (Ht & Ha & Hrt & He).
  repeat split; auto.
Qed.

Lemma ensureValid_without_expiry_never_refreshes_witness :
  exists s',
    ensureValidToken Scenario.quiet (Scenario.state (str "AT-0") (str "RT-0") (Some InvalidDate))
      = (Return tt, s') /\
    refreshes (events_since (Scenario.state (str "AT-0") (str "RT-0") (Some InvalidDate)) s') = 0%nat /\
    token_replies (events_since (Scenario.state (str "AT-0") (str "RT-0") (Some InvalidDate)) s') = [] /\
    accessToken s' = str "AT-0" /\
    refreshToken s' = str "RT-0" /\
    tokenExpiry s' = Some InvalidDate.
Proof.
  apply (ensureValid_without_expiry_never_refreshes
           Scenario.quiet
           (Scenario.state (str "AT-0") (str "RT-0") (Some InvalidDate))).
  - reflexivity.
  - right. reflexivity.
Defined.



Lemma monotone_next (w : World) (n : nat) : monotone w -> clock w n <= clock w (n + 1).
Proof. intros Hm. apply Hm. lia. Qed.

(** C2.  From a state that holds an access token and whose recorded expiry
    instant is at or before the current time, [ensureValidToken] enters
    [refreshAccessToken] exactly once, whatever the outcome; when it returns
    normally, exactly one token exchange took place, and if its response
    reports a positive lifetime the new expiry is an instant strictly later
    than the previous one.  The clock is assumed not to run backwards. *)
Theorem ensureValid_expired_refreshes_once
    (w : World) (s : State) (t : Z) (r : Outcome unit) (s' : State) :
  monotone w ->
  truthy (accessToken s) = true ->
  tokenExpiry s = Some (Instant t) ->
  t <= now w s ->
  ensureValidToken w s = (r, s') ->
  refreshes (events_since s s') = 1%nat /\
  (r = Return tt ->
   exists status response,
     token_replies (events_since s s') = [Response status response] /\
     is_2xx status = true /\
     (forall lifetime, expires_in response = Some lifetime -> 0 < lifetime ->
      exists t', tokenExpiry s' = Some (Instant t') /\ t < t')).
Proof.
  intros Hmono Held Hexp Hpast E.
  pose proof (ensure_inv w s r s' E) as (_ & _ & _ & _ & evs & Hlog & _ & _ & Hr & Hok).
  assert (Hx : expired w s = true).
  { unfold expired. rewrite Hexp. simpl. now apply Z.leb_le. }
  rewrite Held, Hx in *. cbn [andb] in *.
  rewrite (events_since_app s s' evs Hlog).
  split; [exact Hr|].
  intros Hret. destruct (Hok Hret) as (Htr & Href).
  destruct Href as (status & response & lifetime & Hreply & H2xx & _ & Hlife & _ & He & _).
  exists status, response. rewrite Htr, Hreply. repeat split; auto.
  intros l Hl Hpos. rewrite Hlife in Hl. injection Hl as <-.
  eexists. split; [exact He|].
  unfold now in *. cbn [log logged]. rewrite count_app. cbn.
  pose proof (monotone_next w (count is_Clock (log s)) Hmono). lia.
Qed.

Lemma ensureValid_expired_refreshes_once_witness :
  refreshes (events_since Scenario.stale
    (snd (ensureValidToken Scenario.granting
                           Scenario.stale))) = 1%nat /\
  (Return tt = Return tt ->
   exists status response,
     token_replies (events_since Scenario.stale
       (snd (ensureValidToken Scenario.granting
                              Scenario.stale))) = [Response status response] /\
     is_2xx status = true /\
     (forall lifetime, expires_in response = Some lifetime -> 0 < lifetime ->
      exists t', tokenExpiry
        (snd (ensureValidToken Scenario.granting
                               Scenario.stale)) = Some (Instant t') /\
                 Scenario.start - 1000 < t')).
Proof.
  apply (ensureValid_expired_refreshes_once
           Scenario.granting
           Scenario.stale (Scenario.start - 1000)).
  - intros i j Hij. unfold Scenario.granting. cbn [clock Scenario.world]. lia.
  - reflexivity.
  - reflexivity.
  - vm_compute. discriminate.
  - vm_compute. reflexivity.
Defined.

(** ** Credential store *)

Lemma ensureValid_without_token (w : World) (s : State) :
  truthy (accessToken s) = false ->
  ensureValidToken w s =
    (Throw (new_Error
       "No access token. Please authenticate first using the spotify_authenticate tool."),
     s).
Proof.
  intros Hf. unfold ensureValidToken, bind, gets. rewrite Hf. reflexivity.
Qed.

(** C5.  When the token file is missing, or is there but does not parse,
    [loadTokens] returns normally and leaves the three token fields at the
    [null] the constructor gave them; the server so constructed then fails
    [ensureValidToken] with the error that asks to authenticate, without
    any other effect. *)
Theorem load_missing_or_corrupt_requires_authentication (w : World) (disk : DiskFile) :
  disk = Missing \/
  (exists text e, disk = Content text /\ JSON_parse w text = Throw e) ->
  exists s,
    loadTokens w (mkState null null None false disk []) = (Return tt, s) /\
    constructor w disk = s /\
    accessToken s = null /\ refreshToken s = null /\ tokenExpiry s = None /\
    ensureValidToken w s =
      (Throw (new_Error
         "No access token. Please authenticate first using the spotify_authenticate tool."),
       s).
Proof.
  intros [-> | (text & e & -> & Hparse)].
  - eexists. split; [reflexivity|]. split; [reflexivity|].
    repeat split; try reflexivity; now apply ensureValid_without_token.
  - assert (E : loadTokens w (mkState null null None false (Content text) []) =
                (Return tt,
                 mkState null null None false (Content text)
                   [ConsoleError ("Error loading tokens: " ++ message e)])).
    { cbv [loadTokens try_catch bind gets readFileSync lift ret emit file logged
           accessToken refreshToken tokenExpiry listening log app].
      rewrite Hparse. reflexivity. }
    unfold constructor. rewrite E.
    eexists. split; [reflexivity|]. split; [reflexivity|].
    repeat split; try reflexivity; now apply ensureValid_without_token.
Qed.

Lemma load_missing_or_corrupt_requires_authentication_witness :
  exists s,
    loadTokens Scenario.quiet
      (mkState null null None false (Content "{ not json") []) = (Return tt, s) /\
    constructor Scenario.quiet (Content "{ not json") = s /\
    accessToken s = null /\ refreshToken s = null /\ tokenExpiry s = None /\
    ensureValidToken Scenario.quiet s =
      (Throw (new_Error
         "No access token. Please authenticate first using the spotify_authenticate tool."),
       s).
Proof.
  apply (load_missing_or_corrupt_requires_authentication
           Scenario.quiet (Content "{ not json")).
  right. exists "{ not json", (new_Error "Unexpected end of JSON input").
  split; reflexivity.
Defined.

(** A token file that parses to an object without [expires_at] loads an
    invalid date: this is how a state without a usable expiry arises. *)
Lemma load_without_expires_at (w : World) (text : string)
      (entries : list (string * Json)) :
  JSON_parse w text = Return (JObj entries) ->
  lookup "expires_at" entries = Undefined ->
  accessToken (constructor w (Content text)) = lookup "access_token" entries /\
  refreshToken (constructor w (Content text)) = lookup "refresh_token" entries /\
  tokenExpiry (constructor w (Content text)) = Some InvalidDate.
Proof.
  intros Hparse Hexp.
  assert (E : loadTokens w (mkState null null None false (Content text) []) =
              (Return tt,
               mkState (lookup "access_token" entries) (lookup "refresh_token" entries)
                       (Some InvalidDate) false (Content text) [])).
  { cbv [loadTokens try_catch bind gets readFileSync lift ret emit file logged
         set_accessToken set_refreshToken set_tokenExpiry
         accessToken refreshToken tokenExpiry listening log app].
    rewrite Hparse. cbv [property]. rewrite Hexp. reflexivity. }
  unfold constructor. rewrite E. repeat split.
Qed.

(** ** API gateway *)

Lemma api_requests_app (l l' : list Event) :
  api_requests (l ++ l') = (api_requests l ++ api_requests l')%list.
Proof.
  induction l as [|e l IH]; simpl; auto.
  destruct e; simpl; auto. now rewrite IH.
Qed.

Lemma api_requests_none (l : list Event) : api_replies l = [] -> api_requests l = [].
Proof.
  induction l as [|e l IH]; simpl; auto.
  destruct e; simpl; auto. discriminate.
Qed.

Lemma axios_settle_Throw (A : Type) (reply : Http A) (e : Error) :
  axios_settle reply = Throw e ->
  status_is e 401 = true <-> exists body, reply = Response 401 body.
Proof.
  destruct reply as [msg|status body]; simpl.
  - intros H; inversion H; subst. unfold status_is; simpl. split; [discriminate|].
    intros (b & Hb). discriminate.
  - destruct (is_2xx status) eqn:E; [discriminate|].
    intros H; inversion H; subst. unfold status_is; simpl. split.
    + intros Hs. apply Z.eqb_eq in Hs. subst. eauto.
    + intros (b & Hb). inversion Hb; subst. reflexivity.
Qed.

Lemma request_inv (w : World) (endpoint : string) (options : Options)
      (s : State) (r : Outcome Json) (s' : State) :
  makeSpotifyRequest w endpoint options s = (r, s') ->
  let proactive := (if truthy (accessToken s) && expired w s then 1 else 0)%nat in
  listening s' = listening s /\
  exists evs,
    log s' = (log s ++ evs)%list /\ count is_Close evs = 0%nat /\
    ((api_replies evs = [] /\ (exists e, r = Throw e) /\ refreshes evs = proactive) \/
     (exists req reply,
        truthy (accessToken s) = true /\
        api_requests evs = [req] /\ api_replies evs = [reply] /\
        url req = "https://api.spotify.com/v1" ++ endpoint /\
        r = axios_settle reply /\ (forall body, reply <> Response 401 body) /\
        refreshes evs = proactive) \/
     (exists req body e,
        truthy (accessToken s) = true /\
        api_requests evs = [req] /\ api_replies evs = [Response 401 body] /\
        url req = "https://api.spotify.com/v1" ++ endpoint /\
        r = Throw e /\ refreshes evs = (proactive + 1)%nat) \/
     (exists req req' body reply,
        truthy (accessToken s) = true /\
        api_requests evs = [req; req'] /\ api_replies evs = [Response 401 body; reply] /\
        url req = "https://api.spotify.com/v1" ++ endpoint /\ url req' = url req /\
        r = axios_settle reply /\ refreshes evs = (proactive + 1)%nat)).
Proof.
  intros H proactive. unfold makeSpotifyRequest in H. minv H.
  all: match goal with H : ensureValidToken _ _ = _ |- _ =>
        apply ensure_inv in H;
        destruct H as (Hl & _ & Htr & _ & evs & Hlog & Hapi & Hcl & Hr & _) end.
  - (* the first attempt settled *)
    match goal with H : axios_settle ?reply = Return _ |- _ =>
      destruct (axios_settle_Return _ _ _ H) as (status & Hreply & H2xx);
      rename H into Hsettle end.
    split; auto. eexists. split; [cbn [log logged]; rewrite Hlog, <- app_assoc; reflexivity|].
    rewrite <- Hlog.
    rewrite count_app, api_requests_app, api_replies_app, refreshes_app, Hcl, Hapi,
      (api_requests_none _ Hapi), Hr.
    split; [reflexivity|]. right. left.
    do 2 eexists. cbn [app api_requests api_replies].
    repeat split; eauto; try (apply Htr; destruct a; reflexivity).
    intros body Hb. rewrite Hb in Hreply. inversion Hreply; subst. discriminate.
  - (* the first attempt was rejected *)
    match goal with H : axios_settle ?reply = Throw _ |- _ =>
      pose proof (axios_settle_Throw _ _ _ H) as H401; rename H into Hsettle end.
    match goal with H : (if _ then _ else _) _ = _ |- _ => rename H into Hif end.
    destruct (status_is e 401) eqn:St.
    + destruct (proj1 H401 eq_refl) as (body & Hbody). minv Hif.
      all: match goal with H : refreshAccessToken _ _ = _ |- _ =>
             apply refresh_inv in H;
             destruct H as (Hl' & evs' & Hlog' & Hr' & Hapi' & Hcl' & _) end.
      * (* refreshed, then retried *)
        set (req1 := request_config endpoint options (accessToken s0)) in *.
        set (req2 := request_config endpoint options (accessToken s1)) in *.
        set (reply2 := spotify_api w (count is_ApiCall (log s1)) req2) in *.
        split; [cbn [listening logged] in *; congruence|].
        exists (evs ++ ApiCall req1 (Response 401 body) :: Refresh :: evs' ++
                [ApiCall req2 reply2])%list.
        split.
        { cbn [log logged] in *. rewrite Hlog', Hbody, Hlog, <- !app_assoc. reflexivity. }
        rewrite count_app, api_requests_app, api_replies_app, refreshes_app, Hcl, Hapi,
          (api_requests_none _ Hapi), Hr.
        cbn [app api_requests api_replies].
        rewrite api_requests_app, api_replies_app, Hapi', (api_requests_none _ Hapi').
        split.
        { unfold count in *. cbn. rewrite filter_app, length_app. cbn. lia. }
        right. right. right. exists req1, req2, body, reply2.
        cbn [app api_requests api_replies].
        repeat split; eauto; try (apply Htr; destruct a; reflexivity).
        unfold refreshes, count in *. cbn. rewrite filter_app, length_app. cbn.
        fold proactive. lia.
      * (* refreshed, but the new token cannot be written into the header *)
        set (req1 := request_config endpoint options (accessToken s0)) in *.
        split; [cbn [listening logged] in *; congruence|].
        exists (evs ++ ApiCall req1 (Response 401 body) :: Refresh :: evs')%list.
        split.
        { cbn [log logged] in *. rewrite Hlog', Hbody, Hlog, <- !app_assoc. reflexivity. }
        rewrite count_app, api_requests_app, api_replies_app, refreshes_app, Hcl, Hapi,
          (api_requests_none _ Hapi), Hr.
        cbn [app api_requests api_replies].
        rewrite Hapi', (api_requests_none _ Hapi').
        split.
        { unfold count in *. cbn. lia. }
        right. right. left. exists req1, body. eexists.
        repeat split; eauto; try (apply Htr; destruct a; reflexivity).
        unfold refreshes, count in *. cbn. fold proactive. lia.
      * (* the refresh failed *)
        set (req1 := request_config endpoint options (accessToken s0)) in *.
        split; [cbn [listening logged] in *; congruence|].
        exists (evs ++ ApiCall req1 (Response 401 body) :: Refresh :: evs')%list.
        split.
        { cbn [log logged] in *. rewrite Hlog', Hbody, Hlog, <- !app_assoc. reflexivity. }
        rewrite count_app, api_requests_app, api_replies_app, refreshes_app, Hcl, Hapi,
          (api_requests_none _ Hapi), Hr.
        cbn [app api_requests api_replies].
        rewrite Hapi', (api_requests_none _ Hapi').
        split.
        { unfold count in *. cbn. lia. }
        right. right. left. exists req1, body. eexists.
        repeat split; eauto; try (apply Htr; destruct a; reflexivity).
        unfold refreshes, count in *. cbn. fold proactive. lia.
    + (* another failure is passed on *)
      minv Hif.
      split; auto. eexists. split; [cbn [log logged]; rewrite Hlog, <- app_assoc; reflexivity|].
      rewrite <- Hlog.
      rewrite count_app, api_requests_app, api_replies_app, refreshes_app, Hcl, Hapi,
        (api_requests_none _ Hapi), Hr.
      split; [reflexivity|]. right. left.
      do 2 eexists. cbn [app api_requests api_replies].
      repeat split; eauto; try (apply Htr; destruct a; reflexivity).
      intros body Hb. assert (Hc : false = true) by (apply H401; eauto).
      discriminate.
  - (* the token cannot be written into the header *)
    split; auto. exists evs. repeat split; auto. left. eauto.
  - (* no valid token *)
    split; auto. exists evs. repeat split; auto. left. eauto.
Qed.

(** C1 (as amended).  Take any call of [makeSpotifyRequest] whose first
    upstream reply is a 401.  Then [refreshAccessToken] is entered exactly once
    in response to it, on top of the one proactive refresh that
    [ensureValidToken] makes when the recorded expiry has passed; at most two
    upstream requests are made.  If the retry is answered 200, the call
    returns that body; if the retry is answered 401 again, the call fails with
    that response's error.  In both cases exactly two upstream requests were
    made and no further refresh follows. *)
Theorem request_refreshes_and_retries_once_after_401
    (w : World) (endpoint : string) (options : Options)
    (s : State) (r : Outcome Json) (s' : State) (body1 : Json) :
  makeSpotifyRequest w endpoint options s = (r, s') ->
  nth_error (api_replies (events_since s s')) 0 = Some (Response 401 body1) ->
  refreshes (events_since s s') = ((if expired w s then 1 else 0) + 1)%nat /\
  (List.length (api_replies (events_since s s')) <= 2)%nat /\
  (forall body,
     nth_error (api_replies (events_since s s')) 1 = Some (Response 200 body) ->
     r = Return body /\ List.length (api_replies (events_since s s')) = 2%nat) /\
  (forall body2,
     nth_error (api_replies (events_since s s')) 1 = Some (Response 401 body2) ->
     (exists e, r = Throw e /\ response_status e = Some 401) /\
     List.length (api_replies (events_since s s')) = 2%nat).
Proof.
  intros H Hfirst.
  pose proof (request_inv w endpoint options s r s' H) as (_ & evs & Hlog & _ & Hcases).
  rewrite (events_since_app s s' evs Hlog) in *.
  destruct Hcases as
    [ (Hapi & _ & _)
    | [ (req & reply & Held & _ & Hapi & _ & _ & Hne & _)
      | [ (req & body & e & Held & _ & Hapi & _ & Hr & Href)
        | (req & req' & body & reply & Held & _ & Hapi & _ & _ & Hr & Href) ] ] ];
    rewrite Hapi in *; cbn in Hfirst; try discriminate.
  - injection Hfirst as Hfirst. now apply Hne in Hfirst.
  - rewrite Held in Href. cbn [andb] in Href. cbn.
    split; [exact Href|]. split; [lia|].
    split; intros ? Hsnd; discriminate.
  - rewrite Held in Href. cbn [andb] in Href. cbn.
    split; [exact Href|]. split; [lia|].
    split; intros ? Hsnd; injection Hsnd as Hsnd; subst reply; subst r.
    + split; reflexivity.
    + split; [|reflexivity]. eexists. split; reflexivity.
Qed.

Lemma request_refreshes_and_retries_once_after_401_witness :
  refreshes (events_since Scenario.fresh (snd Scenario.retry_when_fresh)) =
    ((if expired Scenario.retry_world Scenario.fresh then 1 else 0) + 1)%nat /\
  (List.length (api_replies (events_since Scenario.fresh (snd Scenario.retry_when_fresh)))
     <= 2)%nat /\
  (forall body,
     nth_error (api_replies (events_since Scenario.fresh (snd Scenario.retry_when_fresh))) 1
       = Some (Response 200 body) ->
     fst Scenario.retry_when_fresh = Return body /\
     List.length (api_replies (events_since Scenario.fresh (snd Scenario.retry_when_fresh)))
       = 2%nat) /\
  (forall body2,
     nth_error (api_replies (events_since Scenario.fresh (snd Scenario.retry_when_fresh))) 1
       = Some (Response 401 body2) ->
     (exists e, fst Scenario.retry_when_fresh = Throw e /\ response_status e = Some 401) /\
     List.length (api_replies (events_since Scenario.fresh (snd Scenario.retry_when_fresh)))
       = 2%nat).
Proof.
  apply (request_refreshes_and_retries_once_after_401
           Scenario.retry_world "/me" no_options Scenario.fresh
           (fst Scenario.retry_when_fresh) (snd Scenario.retry_when_fresh)
           Scenario.denial).
  - vm_compute. reflexivity.
  - vm_compute. reflexivity.
Defined.

(** C1, counterexample.  With a token whose recorded expiry has passed, a
    call that sees 401 and then 200 has refreshed twice: once before the first
    request and once after the 401. *)
Lemma single_refresh_claim_fails_on_expired_token : ~ single_refresh_claim.
Proof.
  intros Claim.
  assert (Hone : refreshes (events_since Scenario.stale (snd Scenario.retry_when_stale))
                 = 1%nat).
  { apply (Claim Scenario.retry_world "/me" no_options Scenario.stale
                 (fst Scenario.retry_when_stale) (snd Scenario.retry_when_stale)
                 Scenario.denial Scenario.profile).
    - vm_compute. reflexivity.
    - vm_compute. reflexivity.
    - vm_compute. reflexivity. }
  vm_compute in Hone. discriminate.
Qed.

(** ** Authorization flow *)

Lemma on_callback_inv (w : World) (req : Callback) (s : State)
      (o : Outcome (Outcome Json)) (s' : State) :
  on_callback w req s = (o, s') ->
  exists settled, o = Return settled /\
    forall v, settled = Return v ->
      v = text_content
            "Successfully authenticated with Spotify! You can now use all Spotify tools.".
Proof.
  intros H. unfold on_callback in H.
  destruct (truthy (query_error req)); minv H.
  all: try (eexists; split; [reflexivity|]; intros v Hv; now inversion Hv).
Qed.

Lemma authenticate_returns_envelope (w : World) (s : State) (v : Json) (s' : State) :
  authenticate w s = (Return v, s') -> exists text, v = text_content text.
Proof.
  intros H. unfold authenticate in H. minv H; try discriminate.
  all: match goal with H : deliver _ _ _ = _ |- _ => rename H into Hd end.
  all: destruct (callback w (count is_Listen (log s))) as [req|]; cbn [deliver] in Hd.
  all: try (unfold on_timeout, server_close in Hd; minv Hd; discriminate).
  all: apply on_callback_inv in Hd; destruct Hd as (settled & Heq & Hv).
  all: try discriminate.
  all: injection Heq as <-; eauto.
Qed.

(** ** Dispatch *)

Lemma respond_inv (w : World) (body : Json) (s : State) (v : Json) (s' : State) :
  respond w body s = (Return v, s') -> exists text, v = text_content text.
Proof. unfold respond, ret. intros H; inversion H; subst. eauto. Qed.

Ltac envelope :=
  repeat match goal with
         | H : bind _ _ _ = (Return _, _) |- _ => minv H; try discriminate
         | H : respond _ _ _ = (Return _, _) |- _ => apply respond_inv in H; exact H
         end.

Lemma call_tool_returns_envelope (w : World) (name : string) (args : Arguments)
      (s : State) (v : Json) (s' : State) :
  call_tool w name args s = (Return v, s') -> exists text, v = text_content text.
Proof.
  unfold call_tool.
  repeat match goal with
         | |- (if ?b then _ else _) _ = _ -> _ => destruct b
         end;
    intros H.
  - now apply authenticate_returns_envelope in H.
  - unfold getUserProfile in H. envelope.
  - envelope. unfold getTopTracks in *. envelope.
  - envelope. unfold getTopArtists in *. envelope.
  - envelope. unfold getRecentlyPlayed in *. envelope.
  - envelope. unfold searchTracks in *. envelope.
  - envelope. unfold getTrackFeatures in *. envelope.
  - envelope. unfold getPlaylists in *. envelope.
  - envelope. unfold getPlaylistTracks in *. envelope.
  - envelope. unfold createPlaylist in *. envelope.
  - envelope. unfold addTracksToPlaylist in *. envelope.
  - unfold getRecommendations in H. envelope.
  - minv H.
Qed.

Lemma text_content_shape (text : string) : single_text_envelope (text_content text) = true.
Proof. reflexivity. Qed.

Lemma CallToolRequest_returns_envelope
    (w : World) (name : string) (args : Arguments) (s : State) :
  exists text, fst (CallToolRequest w name args s) = Return (text_content text).
Proof.
  unfold CallToolRequest, try_catch.
  destruct (call_tool w name args s) as [[v|e] s'] eqn:E; cbn [fst ret].
  - apply call_tool_returns_envelope in E. destruct E as (text & ->). eauto.
  - eauto.
Qed.

(** C8.  Whatever the tool name, the arguments, the state and the behaviour
    of the outside world, the call-tool handler returns normally, and what it
    returns is an object whose only property [content] is an array of exactly
    one item, of type ["text"], with a string [text]; this holds when the
    tool's handler succeeded and when it threw. *)
Theorem dispatch_result_is_single_text_item
    (w : World) (name : string) (args : Arguments) (s : State) :
  exists result,
    fst (CallToolRequest w name args s) = Return result /\
    single_text_envelope result = true.
Proof.
  destruct (CallToolRequest_returns_envelope w name args s) as (text & H).
  exists (text_content text). split; [exact H | apply text_content_shape].
Qed.

(** The tool list names twelve tools, all different. *)
Lemma twelve_tools :
  List.length Registry.tool_names = 12%nat /\ NoDup Registry.tool_names.
Proof.
  split; [reflexivity|].
  unfold Registry.tool_names, Registry.tools. cbn [map Registry.t_name].
  repeat (constructor; [cbn; intuition discriminate|]).
  constructor.
Qed.



(** ** The order of own properties *)

Lemma insert_index_perm (n : N) (entry : string * Json)
      (sorted : list (N * (string * Json))) :
  Permutation (insert_index n entry sorted) ((n, entry) :: sorted).
Proof.
  induction sorted as [|[m e] rest IH]; cbn [insert_index]; [reflexivity|].
  destruct (n <? m)%N; [reflexivity|].
  rewrite IH. apply perm_swap.
Qed.

Lemma by_index_perm (entries : list (string * Json))
      (sorted : list (N * (string * Json))) :
  Permutation
    (map snd (fold_left (fun sorted entry =>
                           match array_index (fst entry) with
                           | Some n => insert_index n entry sorted
                           | None => sorted
                           end) entries sorted))
    (map snd sorted ++ filter is_index entries).
Proof.
  revert sorted. induction entries as [|x rest IH]; intros sorted; cbn [fold_left filter].
  - now rewrite app_nil_r.
  - rewrite IH. unfold is_index at 2. destruct (array_index (fst x)) as [n|].
    + rewrite (Permutation_map snd (insert_index_perm n x sorted)). cbn [map snd].
      cbn [app]. apply Permutation_middle.
    + reflexivity.
Qed.

Lemma filter_split_perm (A : Type) (f : A -> bool) (l : list A) :
  Permutation (filter f l ++ filter (fun x => negb (f x)) l) l.
Proof.
  induction l as [|x rest IH]; cbn [filter]; [reflexivity|].
  destruct (f x); cbn [negb app].
  - now constructor.
  - rewrite <- Permutation_middle. now constructor.
Qed.

(** [Object.entries] visits every own property once. *)
Lemma own_properties_perm (entries : list (string * Json)) :
  Permutation (own_properties entries) entries.
Proof.
  unfold own_properties, by_index. rewrite by_index_perm. cbn [map app].
  apply filter_split_perm.
Qed.

Lemma filter_perm (A : Type) (f : A -> bool) (l l' : list A) :
  Permutation l l' -> Permutation (filter f l) (filter f l').
Proof.
  induction 1 as [|x l l' _ IH|x y l|l l' l'' _ IH1 _ IH2]; cbn [filter].
  - constructor.
  - destruct (f x); [now constructor | exact IH].
  - destruct (f x), (f y); try reflexivity. apply perm_swap.
  - now rewrite IH1.
Qed.

Lemma forwarded_perm (l l' : list (string * Json)) :
  Permutation l l' -> Permutation (forwarded l) (forwarded l').
Proof. intros H. unfold forwarded. now apply Permutation_map, filter_perm. Qed.

Lemma all_convertible_perm (l l' : list (string * Json)) :
  Permutation l l' -> all_convertible l = all_convertible l'.
Proof.
  intros H. unfold all_convertible.
  destruct (forallb (fun entry => convertible (snd entry)) l') eqn:E.
  - apply forallb_forall. intros x Hx.
    apply (proj1 (forallb_forall _ _) E). now apply (Permutation_in _ H).
  - destruct (forallb (fun entry => convertible (snd entry)) l) eqn:E'; [|reflexivity].
    rewrite <- E. symmetry. apply forallb_forall. intros x Hx.
    apply (proj1 (forallb_forall _ _) E'). now apply (Permutation_in _ (Permutation_sym H)).
Qed.




(** ** Recommendations *)

Lemma convertible_items (items : list Json) :
  convertible (JArr items) = forallb convertible items.
Proof.
  induction items as [|x rest IH]; [reflexivity|].
  cbn [forallb]. rewrite <- IH. reflexivity.
Qed.

Lemma add_param_forwarded (entry : string * Json) (q : Url.URLSearchParams) :
  convertible (snd entry) = true ->
  add_param q entry = Return (q ++ forwarded [entry])%list.
Proof.
  destruct entry as [key value]. cbn [snd]. intros Hc.
  unfold add_param, forwarded, Url.append, call_toString, join.
  destruct value as [| | | |items|entries]; cbn [is_undefined is_null negb andb and_then];
    try reflexivity.
  - cbn. now rewrite app_nil_r.
  - rewrite convertible_items in Hc. rewrite Hc. reflexivity.
  - cbn [convertible] in Hc. apply negb_true_iff in Hc. rewrite Hc. reflexivity.
Qed.

Lemma add_param_throws (entry : string * Json) (q : Url.URLSearchParams) :
  convertible (snd entry) = false ->
  add_param q entry = Throw (TypeError "value.toString is not a function") \/
  add_param q entry = Throw CannotConvert.
Proof.
  destruct entry as [key value]. cbn [snd]. intros Hc.
  unfold add_param, call_toString, join.
  destruct value as [| | | |items|entries]; try discriminate;
    cbn [is_undefined is_null negb andb and_then].
  - rewrite convertible_items in Hc. rewrite Hc. now right.
  - cbn [convertible] in Hc. apply negb_false_iff in Hc. rewrite Hc. now left.
Qed.

Lemma forwarded_cons (entry : string * Json) (params : list (string * Json)) :
  forwarded (entry :: params) = (forwarded [entry] ++ forwarded params)%list.
Proof.
  unfold forwarded. cbn [filter].
  destruct (negb (is_null (Val (snd entry)))); reflexivity.
Qed.

Lemma forEach_add_param (params : list (string * Json)) (q : Url.URLSearchParams) :
  all_convertible params = true ->
  forEach add_param params q = Return (q ++ forwarded params)%list.
Proof.
  revert q. induction params as [|entry params IH]; intros q Hc.
  - cbn. now rewrite app_nil_r.
  - cbn [all_convertible forallb] in Hc. apply andb_true_iff in Hc. destruct Hc as [Hx Hrest].
    cbn [forEach]. rewrite (add_param_forwarded entry q Hx). cbn [and_then].
    rewrite (IH _ Hrest), (forwarded_cons entry params), app_assoc. reflexivity.
Qed.

Lemma forEach_add_param_throws (params : list (string * Json)) (q : Url.URLSearchParams) :
  all_convertible params = false ->
  forEach add_param params q = Throw (TypeError "value.toString is not a function") \/
  forEach add_param params q = Throw CannotConvert.
Proof.
  revert q. induction params as [|entry params IH]; intros q Hc; [discriminate|].
  cbn [all_convertible forallb] in Hc. cbn [forEach].
  destruct (convertible (snd entry)) eqn:Hx.
  - rewrite (add_param_forwarded entry q Hx). cbn [and_then]. apply IH. exact Hc.
  - destruct (add_param_throws entry q Hx) as [-> | ->]; cbn [and_then]; auto.
Qed.

(** When the loop completes, it has built the pairs of the description. *)
Lemma recommendation_params_Return (params : list (string * Json))
      (query : Url.URLSearchParams) :
  recommendation_params params = Return query ->
  all_convertible params = true /\ query = forwarded params.
Proof.
  unfold recommendation_params. intros H.
  destruct (all_convertible params) eqn:Hc.
  - rewrite (forEach_add_param params [] Hc) in H. now injection H as <-.
  - destruct (forEach_add_param_throws params [] Hc) as [E | E];
      rewrite E in H; discriminate.
Qed.

Lemma toString_array (items : list Json) : toString (JArr items) = Array_join "," items.
Proof.
  unfold Array_join. induction items as [|x rest IH]; [reflexivity|].
  destruct rest as [|y rest'].
  - destruct x; reflexivity.
  - change (toString (JArr (x :: y :: rest')))
      with (join_item x ++ "," ++ toString (JArr (y :: rest'))).
    rewrite IH. reflexivity.
Qed.

(** Arguments that break the declared schema in four ways go upstream all
    the same. *)
Lemma recommendations_accept_excess :
  option_map (fun tool => Registry.conforms tool Scenario.excess)
             (Registry.find_tool "get_recommendations" Registry.tools) = Some false /\
  map url (api_requests (log (snd
    (CallToolRequest Scenario.serving
                     "get_recommendations" (Some Scenario.excess) Scenario.fresh)))) =
    [ "https://api.spotify.com/v1/recommendations?seed_genres=rock%2Cpop%2Cjazz%2Cfolk%2Csoul%2Cfunk&limit=1000&target_energy=7&market=SE" ].
Proof. split; vm_compute; reflexivity. Qed.

(** Every other tool that declares a default limit sends it when the caller
    gives none. *)
Lemma declared_default_limits_are_sent :
  Scenario.requested "get_top_tracks" [] =
    ["https://api.spotify.com/v1/me/top/tracks?time_range=medium_term&limit=20"] /\
  Scenario.requested "get_top_artists" [] =
    ["https://api.spotify.com/v1/me/top/artists?time_range=medium_term&limit=20"] /\
  Scenario.requested "get_recently_played" [] =
    ["https://api.spotify.com/v1/me/player/recently-played?limit=20"] /\
  Scenario.requested "search_tracks" [("query", JStr "so what")] =
    ["https://api.spotify.com/v1/search?q=so%20what&type=track&limit=20"] /\
  Scenario.requested "get_playlists" [] =
    ["https://api.spotify.com/v1/me/playlists?limit=20"] /\
  Scenario.requested "get_playlist_tracks" [("playlist_id", JStr "p1")] =
    ["https://api.spotify.com/v1/playlists/p1/tracks?limit=50"] /\
  Scenario.requested "get_recommendations" [] =
    ["https://api.spotify.com/v1/recommendations?"].
Proof. repeat split; vm_compute; reflexivity. Qed.

(** C6.  Invoked with [{seed_genres: ["rock"], target_energy: 0.8}] on a
    valid token, [get_recommendations] issues one upstream request whose
    query is exactly [seed_genres=rock&target_energy=0.8]: the two supplied
    parameters and nothing else.  The limit of 20 that the tool's schema
    declares as default is not in it, although the handlers of the other
    tools put their declared default limit into the request. *)
Theorem recommendations_query_lacks_declared_default_limit :
  recommendation_params Scenario.rock =
    Return [("seed_genres", "rock"); ("target_energy", "0.8")] /\
  map url (api_requests (log (snd Scenario.recommendations_run))) =
    ["https://api.spotify.com/v1/recommendations?seed_genres=rock&target_energy=0.8"] /\
  fst Scenario.recommendations_run =
    Return (text_content
              (JSON_stringify Scenario.serving
                              Scenario.profile)) /\
  option_map Registry.p_default
    (match Registry.find_tool "get_recommendations" Registry.tools with
     | Some tool => Registry.find_property "limit" (Registry.t_properties tool)
     | None => None
     end) = Some (Val (JNum (int 20))) /\
  map url (api_requests (log (snd Scenario.top_tracks_run))) =
    ["https://api.spotify.com/v1/me/top/tracks?time_range=medium_term&limit=20"].
Proof. repeat split; vm_compute; reflexivity. Qed.

(** ** The listener after a failed exchange *)

(** The two paths that do tear the listener down: the timer, and a
    successful exchange. *)
Lemma timeout_closes_listener (s : State) :
  exists s',
    on_timeout s = (Return (Throw (new_Error "Authentication timeout")), s') /\
    listening s' = false /\ events_since s s' = [Close].
Proof.
  eexists. split; [reflexivity|]. split; [reflexivity|].
  apply events_since_app. reflexivity.
Qed.

Lemma successful_exchange_closes_listener
    (w : World) (req : Callback) (s : State) (v : Json) (s' : State) :
  on_callback w req s = (Return (Return v), s') ->
  listening s' = false /\ count is_Close (events_since s s') = 1%nat.
Proof.
  intros H. unfold on_callback in H.
  destruct (truthy (query_error req)); minv H; try discriminate.
  match goal with H : saveTokens _ _ = _ |- _ =>
    apply saveTokens_inv in H;
    destruct H as (_ & _ & _ & _ & _ & evs & Hlog & _ & _ & _ & Hnc) end.
  unfold server_close in *.
  match goal with H : bind _ _ _ = _ |- _ => minv H end.
  split; [reflexivity|].
  erewrite events_since_app.
  2:{ cbn [log logged]. rewrite Hlog. cbn [log logged]. rewrite <- !app_assoc. reflexivity. }
  rewrite !count_app, Hnc. reflexivity.
Qed.

(** A callback that carries an error parameter is answered and rejected,
    and the listener is left alone as well. *)
Lemma denied_callback_leaves_listener_as_it_was
    (w : World) (req : Callback) (s : State) :
  truthy (query_error req) = true ->
  exists s',
    on_callback w req s =
      (Return (Throw (new_Error
         ("Authentication failed: " ++ Value_toString (query_error req)))), s') /\
    listening s' = listening s /\
    events_since s s' =
      [Send ("Authentication failed: " ++ Value_toString (query_error req))].
Proof.
  intros Herr. unfold on_callback. rewrite Herr.
  eexists. split; [reflexivity|]. split; [reflexivity|].
  apply events_since_app. reflexivity.
Qed.

(** C7.  When the callback carries no error and the token endpoint does not
    answer the exchange with a 2xx response (the connection fails, or the
    status is outside 200..299), the route handler shows the error in the
    browser and rejects the waiting promise with it, and that is all: no
    [close] is logged and the listener is in the state it was in, so a
    listener that was bound stays bound. *)
Theorem failed_exchange_leaves_listener_as_it_was
    (w : World) (req : Callback) (s : State) :
  truthy (query_error req) = false ->
  (forall response,
     axios_settle (token_endpoint w (count is_TokenPost (log s))
                     (authorization_code_form w (query_code req)))
     <> Return response) ->
  exists e s',
    axios_settle (token_endpoint w (count is_TokenPost (log s))
                    (authorization_code_form w (query_code req))) = Throw e /\
    on_callback w req s = (Return (Throw e), s') /\
    listening s' = listening s /\
    events_since s s' =
      [ TokenPost (authorization_code_form w (query_code req))
                  (token_endpoint w (count is_TokenPost (log s))
                     (authorization_code_form w (query_code req)));
        Send ("Authentication error: " ++ message e) ] /\
    count is_Close (events_since s s') = 0%nat.
Proof.
  intros Hne Hfail.
  destruct (axios_settle (token_endpoint w (count is_TokenPost (log s))
              (authorization_code_form w (query_code req)))) as [response|e] eqn:E.
  { now destruct (Hfail response). }
  exists e. eexists.
  split; [reflexivity|].
  assert (Hrun : on_callback w req s =
                 (Return (Throw e),
                  logged (logged s (TokenPost (authorization_code_form w (query_code req))
                     (token_endpoint w (count is_TokenPost (log s))
                        (authorization_code_form w (query_code req)))))
                    (Send ("Authentication error: " ++ message e)))).
  { unfold on_callback. rewrite Hne.
    unfold try_catch, bind at 1. rewrite axios_post_token_run. cbv zeta.
    rewrite E. reflexivity. }
  split; [exact Hrun|]. split; [reflexivity|].
  assert (Hev : events_since s
            (logged (logged s (TokenPost (authorization_code_form w (query_code req))
                     (token_endpoint w (count is_TokenPost (log s))
                        (authorization_code_form w (query_code req)))))
                    (Send ("Authentication error: " ++ message e))) =
            [ TokenPost (authorization_code_form w (query_code req))
                  (token_endpoint w (count is_TokenPost (log s))
                     (authorization_code_form w (query_code req)));
              Send ("Authentication error: " ++ message e) ]).
  { apply events_since_app. cbn [log logged]. rewrite <- app_assoc. reflexivity. }
  rewrite Hev. split; reflexivity.
Qed.

Lemma failed_exchange_leaves_listener_as_it_was_witness :
  exists e s',
    axios_settle (token_endpoint Scenario.refused_world
                    (count is_TokenPost (log Scenario.awaiting))
                    (authorization_code_form Scenario.refused_world (str "code-1")))
      = Throw e /\
    on_callback Scenario.refused_world (mkCallback (str "code-1") Undefined)
                Scenario.awaiting = (Return (Throw e), s') /\
    listening s' = true /\
    events_since Scenario.awaiting s' =
      [ TokenPost (authorization_code_form Scenario.refused_world (str "code-1"))
                  (token_endpoint Scenario.refused_world
                     (count is_TokenPost (log Scenario.awaiting))
                     (authorization_code_form Scenario.refused_world (str "code-1")));
        Send ("Authentication error: " ++ message e) ] /\
    count is_Close (events_since Scenario.awaiting s') = 0%nat.
Proof.
  apply (failed_exchange_leaves_listener_as_it_was
           Scenario.refused_world (mkCallback (str "code-1") Undefined) Scenario.awaiting).
  - reflexivity.
  - intros response. vm_compute. discriminate.
Defined.

(** The same through the dispatcher: the tool reports the failure as text
    and returns with port 8888 still bound. *)
Lemma refused_authentication_returns_with_listener_bound :
  fst (CallToolRequest Scenario.refused_world "spotify_authenticate" None
         (constructor Scenario.refused_world Missing)) =
    Return (text_content "Error: Request failed with status code 400") /\
  listening (snd (CallToolRequest Scenario.refused_world "spotify_authenticate" None
                    (constructor Scenario.refused_world Missing))) = true.
Proof. split; vm_compute; reflexivity. Qed.

(** * Further properties *)

(** ** Token manager, further *)

(** X1.  While the recorded expiry lies in the future, [ensureValidToken]
    returns without refreshing and without touching the token fields or the
    file; it only reads the clock. *)
Theorem ensureValid_before_expiry_keeps_token
    (w : World) (s : State) (t : Z) :
  truthy (accessToken s) = true ->
  tokenExpiry s = Some (Instant t) ->
  now w s < t ->
  ensureValidToken w s = (Return tt, logged s (Clock (now w s))).
Proof.
  intros Held Hexp Hfuture.
  unfold ensureValidToken, bind at 1, gets. rewrite Held. cbn [negb].
  unfold bind at 1. rewrite Hexp. unfold bind at 1. rewrite Date_now_run.
  cbn [reached]. replace (t <=? now w s) with false; [reflexivity|].
  symmetry. apply Z.leb_gt. exact Hfuture.
Qed.

Lemma ensureValid_before_expiry_keeps_token_witness :
  ensureValidToken Scenario.quiet Scenario.fresh =
    (Return tt, logged Scenario.fresh (Clock (now Scenario.quiet Scenario.fresh))).
Proof.
  apply (ensureValid_before_expiry_keeps_token Scenario.quiet Scenario.fresh
           (Scenario.start + 3600000)).
  - reflexivity.
  - reflexivity.
  - vm_compute. reflexivity.
Defined.

(** A [saveTokens] that throws has not changed the file, unless the write
    itself failed after the file was opened. *)
Lemma saveTokens_failure (w : World) (s : State) (e : Error) (s' : State) :
  saveTokens w s = (Throw e, s') ->
  file s' = file s \/
  exists failure n t,
    write_error w (count is_FileWrite (log s)) = Some failure /\
    written failure = Some n /\
    e = new_Error (failure_message failure) /\
    tokenExpiry s = Some (Instant t) /\
    file s' = Content (substring 0 n
                 (JSON_stringify w (token_record w (accessToken s) (refreshToken s) t))).
Proof.
  intros H. unfold saveTokens in H. minv H.
  match goal with H : match tokenExpiry s with _ => _ end _ = _ |- _ => rename H into Hm end.
  destruct (tokenExpiry s) as [[|t]|] eqn:Exp; try (minv Hm; left; reflexivity).
  unfold writeFileSync in Hm. cbv zeta in Hm. minv Hm.
  match goal with H : match ?x with _ => _ end _ = _ |- _ =>
    destruct x as [failure|] eqn:Hw; minv H end.
  cbn [file logged]. unfold left_by.
  destruct (written failure) as [n|] eqn:Hn; [|left; reflexivity].
  right. exists failure, n, t. repeat split; auto.
Qed.

(** X2.  A refresh that fails leaves the token file as it was, unless the
    failure is that of the write itself after the file was opened: then the
    file holds the beginning of the record that was being written, as far as
    the write got.  The error thrown is a plain error without a response
    status. *)
Theorem failed_refresh_keeps_or_cuts_file
    (w : World) (s : State) (e : Error) (s' : State) :
  refreshAccessToken w s = (Throw e, s') ->
  response_status e = None /\
  (file s' = file s \/
   exists failure n t,
     write_error w (count is_FileWrite (log s)) = Some failure /\
     written failure = Some n /\
     e = new_Error ("Failed to refresh token: " ++ failure_message failure) /\
     tokenExpiry s' = Some (Instant t) /\
     file s' = Content (substring 0 n
                  (JSON_stringify w
                     (token_record w (accessToken s') (refreshToken s') t)))).
Proof.
  intros H. unfold refreshAccessToken in H. minv H.
  match goal with H : (if _ then _ else _) _ = _ |- _ => rename H into Hif end.
  destruct (truthy (refreshToken s)); cbn [negb] in Hif; minv Hif.
  all: try discriminate.
  all: try (split; [reflexivity | left; reflexivity]).
  all: try (match goal with H : (if truthy ?b then _ else _) _ = _ |- _ =>
              destruct (truthy b); minv H end).
  all: try discriminate.
  all: (split; [reflexivity|]).
  all: match goal with H : saveTokens _ _ = _ |- _ =>
         pose proof (saveTokens_inv _ _ _ _ H) as (Ha & Hr & He & _);
         apply saveTokens_failure in H;
         destruct H as [Hf | (failure & n & t & Hw & Hn & -> & Ht & Hf)] end.
  all: cbn [file accessToken refreshToken tokenExpiry log logged] in *.
  all: try (left; assumption).
  all: right; exists failure, n, t.
  all: rewrite Ha, Hr, He.
  all: repeat split; auto.
  all: rewrite <- Hw; f_equal; rewrite !count_app; cbn; lia.
Qed.

Lemma failed_refresh_keeps_or_cuts_file_witness :
  response_status
    (new_Error "Failed to refresh token: ENOSPC: no space left on device, write") = None /\
  (file (snd (refreshAccessToken Cases.full_disk Scenario.stale)) = file Scenario.stale \/
   exists failure n t,
     write_error Cases.full_disk (count is_FileWrite (log Scenario.stale)) = Some failure /\
     written failure = Some n /\
     new_Error "Failed to refresh token: ENOSPC: no space left on device, write"
       = new_Error ("Failed to refresh token: " ++ failure_message failure) /\
     tokenExpiry (snd (refreshAccessToken Cases.full_disk Scenario.stale))
       = Some (Instant t) /\
     file (snd (refreshAccessToken Cases.full_disk Scenario.stale))
       = Content (substring 0 n
           (JSON_stringify Cases.full_disk
              (token_record Cases.full_disk
                 (accessToken (snd (refreshAccessToken Cases.full_disk Scenario.stale)))
                 (refreshToken (snd (refreshAccessToken Cases.full_disk Scenario.stale)))
                 t)))).
Proof.
  apply (failed_refresh_keeps_or_cuts_file Cases.full_disk Scenario.stale
           (new_Error "Failed to refresh token: ENOSPC: no space left on device, write")
           (snd (refreshAccessToken Cases.full_disk Scenario.stale))).
  vm_compute. reflexivity.
Defined.

Lemma refresh_returns_convertible (w : World) (s : State) (s' : State) :
  refreshAccessToken w s = (Return tt, s') -> Value_convertible (refreshToken s) = true.
Proof.
  intros H. unfold refreshAccessToken in H. minv H.
  match goal with H : (if _ then _ else _) _ = _ |- _ => rename H into Hif end.
  destruct (truthy (refreshToken s)); cbn [negb] in Hif; minv Hif.
  all: try discriminate.
  all: eapply interpolate_convertible; eassumption.
Qed.

(** X3.  When no refresh token is held, when the held one cannot be written
    into the form, or when the token endpoint does not answer with a 2xx
    response, [refreshAccessToken] throws and the three token fields and the
    file are what they were.  Without a refresh token the endpoint is not
    contacted at all; otherwise the error names the cause: the failed
    conversion, or the failure of the request. *)
Theorem rejected_refresh_changes_nothing (w : World) (s : State) :
  truthy (refreshToken s) = false \/
  Value_convertible (refreshToken s) = false \/
  (forall response,
     axios_settle (token_endpoint w (count is_TokenPost (log s))
                     (refresh_token_form w (refreshToken s))) <> Return response) ->
  exists e s',
    refreshAccessToken w s = (Throw e, s') /\
    tokens_of s' = tokens_of s /\ file s' = file s /\ listening s' = listening s /\
    (truthy (refreshToken s) = false ->
     e = new_Error "No refresh token available. Please re-authenticate." /\
     events_since s s' = [Refresh]) /\
    (truthy (refreshToken s) = true ->
     exists cause,
       (Value_convertible (refreshToken s) = false /\ cause = CannotConvert /\
        events_since s s' = [Refresh] \/
        Value_convertible (refreshToken s) = true /\
        axios_settle (token_endpoint w (count is_TokenPost (log s))
                        (refresh_token_form w (refreshToken s))) = Throw cause) /\
       e = new_Error ("Failed to refresh token: " ++ message cause)).
Proof.
  intros Hwhy.
  destruct (refreshAccessToken w s) as [[[]|e] s'] eqn:Run.
  { exfalso. pose proof Run as Run'. apply refresh_inv in Run.
    destruct Run as (_ & evs & _ & _ & _ & _ & Hok).
    destruct (Hok eq_refl) as (_ & status & response & lifetime & Hreply & H2xx & Held & _).
    destruct Hwhy as [Hf | [Hf | Hrej]]; [congruence | |].
    { apply refresh_returns_convertible in Run'. congruence. }
    apply (Hrej response). rewrite Hreply. cbn [axios_settle]. now rewrite H2xx. }
  exists e, s'. split; [reflexivity|].
  unfold refreshAccessToken in Run. minv Run.
  match goal with H : (if _ then _ else _) _ = _ |- _ => rename H into Hif end.
  destruct (truthy (refreshToken s)) eqn:Held; cbn [negb] in Hif; minv Hif.
  all: try discriminate.
  all: norm; fold (refresh_token_form w (refreshToken s)) in *.
  all: repeat match goal with
         | H : interpolate _ = Return _ |- _ => apply interpolate_convertible in H
         | H : interpolate _ = Throw _ |- _ => apply interpolate_Throw in H; destruct H
         end.
  all: try (match goal with H : axios_settle _ = Return ?a |- _ =>
              exfalso; destruct Hwhy as [Hf | [Hf | Hrej]];
              [discriminate | congruence | exact (Hrej a H)] end).
  all: repeat match goal with H : Throw _ = Throw _ |- _ => injection H as -> end.
  all: subst.
  all: repeat split; try discriminate.
  all: try (apply events_since_app; reflexivity).
  all: intros _; eexists; split; [|reflexivity].
  all: try (right; split; [assumption|eassumption]).
  all: left; repeat split; try assumption; apply events_since_app; reflexivity.
Qed.

Lemma rejected_refresh_changes_nothing_witness :
  exists e s',
    refreshAccessToken Scenario.quiet Scenario.stale = (Throw e, s') /\
    tokens_of s' = tokens_of Scenario.stale /\ file s' = file Scenario.stale /\
    listening s' = listening Scenario.stale /\
    (truthy (refreshToken Scenario.stale) = false ->
     e = new_Error "No refresh token available. Please re-authenticate." /\
     events_since Scenario.stale s' = [Refresh]) /\
    (truthy (refreshToken Scenario.stale) = true ->
     exists cause,
       (Value_convertible (refreshToken Scenario.stale) = false /\ cause = CannotConvert /\
        events_since Scenario.stale s' = [Refresh] \/
        Value_convertible (refreshToken Scenario.stale) = true /\
        axios_settle (token_endpoint Scenario.quiet (count is_TokenPost (log Scenario.stale))
                        (refresh_token_form Scenario.quiet (refreshToken Scenario.stale)))
          = Throw cause) /\
       e = new_Error ("Failed to refresh token: " ++ message cause)).
Proof.
  apply (rejected_refresh_changes_nothing Scenario.quiet Scenario.stale).
  right. right. intros response. vm_compute. discriminate.
Defined.

(** A refresh token that cannot be written into the form fails the refresh
    before the token endpoint is contacted, even where the endpoint would
    grant it. *)
Lemma unconvertible_refresh_token_is_not_posted :
  refreshAccessToken Scenario.granting Cases.unwritable =
    (Throw (new_Error "Failed to refresh token: Cannot convert object to primitive value"),
     logged Cases.unwritable Refresh).
Proof. vm_compute. reflexivity. Qed.

(** An access token that cannot be written into the header fails the call
    before anything is sent. *)
Lemma unconvertible_access_token_is_not_sent :
  fst (makeSpotifyRequest Scenario.serving "/me" no_options Cases.unwritable)
    = Throw CannotConvert /\
  api_requests (events_since Cases.unwritable
     (snd (makeSpotifyRequest Scenario.serving "/me" no_options Cases.unwritable))) = [].
Proof. split; vm_compute; reflexivity. Qed.

(** X4.  When a refresh token is held that can be written into the form,
    and the token endpoint answers the refresh with a 2xx response that
    gives no lifetime, the refresh throws, and how far it got depends on the
    body.  A body of [null] has no property to read: nothing is changed.  Any
    other body has already replaced the access token in memory when the
    failure comes: the new access token is held with an invalid expiry date,
    the file is not rewritten, and from then on [ensureValidToken] accepts
    the token without ever refreshing it. *)
Theorem refresh_without_lifetime_throws
    (w : World) (s : State) (status : Z) (response : TokenData) :
  truthy (refreshToken s) = true ->
  Value_convertible (refreshToken s) = true ->
  token_endpoint w (count is_TokenPost (log s)) (refresh_token_form w (refreshToken s))
    = Response status response ->
  is_2xx status = true ->
  expires_in response = None ->
  exists s',
    file s' = file s /\
    match response with
    | NullData =>
        refreshAccessToken w s =
          (Throw (new_Error
             "Failed to refresh token: Cannot read properties of null (reading 'access_token')"),
           s') /\
        tokens_of s' = tokens_of s
    | mkTokenData access _ _ =>
        refreshAccessToken w s =
          (Throw (new_Error "Failed to refresh token: Invalid time value"), s') /\
        accessToken s' = access /\
        tokenExpiry s' = Some InvalidDate /\
        (truthy access = true ->
         fst (ensureValidToken w s') = Return tt /\
         refreshes (events_since s' (snd (ensureValidToken w s'))) = 0%nat)
    end.
Proof.
  intros Held Hconv Hreply H2xx Hlife.
  destruct (refreshAccessToken w s) as [[[]|e] s'] eqn:Run.
  { exfalso. apply refresh_inv in Run.
    destruct Run as (_ & evs & _ & _ & _ & _ & Hok).
    destruct (Hok eq_refl) as (_ & st & resp & lifetime & Hr & _ & _ & Hl & _).
    rewrite Hreply in Hr. injection Hr as <- <-. congruence. }
  exists s'.
  assert (Facts :
    file s' = file s /\
    match response with
    | NullData =>
        e = new_Error
              "Failed to refresh token: Cannot read properties of null (reading 'access_token')" /\
        tokens_of s' = tokens_of s
    | mkTokenData access _ _ =>
        e = new_Error "Failed to refresh token: Invalid time value" /\
        accessToken s' = access /\ tokenExpiry s' = Some InvalidDate
    end).
  { unfold refreshAccessToken in Run. minv Run.
    match goal with H : (if _ then _ else _) _ = _ |- _ => rename H into Hif end.
    rewrite Held in Hif. cbn [negb] in Hif. minv Hif.
    all: try discriminate.
    all: norm; fold (refresh_token_form w (refreshToken s)) in *.
    all: try (match goal with H : interpolate _ = Throw _ |- _ =>
                apply interpolate_Throw in H; destruct H; congruence end).
    all: match goal with H : axios_settle _ = _ |- _ =>
           rewrite Hreply in H; cbn [axios_settle] in H; rewrite H2xx in H;
           try discriminate; injection H as <- end.
    all: repeat match goal with H : Throw _ = Throw _ |- _ => injection H as <- end.
    all: destruct response as [|access refresh lifetime];
      cbn [data_property expires_in access_token refresh_token] in *;
      try discriminate.
    all: try (match goal with H : Throw _ = Throw _ |- _ => injection H as <- end;
              split; [reflexivity | split; reflexivity]).
    all: try (match goal with H : (if truthy ?b then _ else _) _ = (Throw _, _) |- _ =>
                exfalso; destruct (truthy b); minv H; discriminate end).
    all: match goal with H : (if truthy ?b then _ else _) _ = _ |- _ =>
           destruct (truthy b); minv H end.
    all: match goal with H : saveTokens _ _ = _ |- _ => unfold saveTokens in H; minv H end.
    all: cbn [tokenExpiry accessToken refreshToken log file] in *.
    all: subst; cbn [expiry_after] in *.
    all: match goal with H : throw _ _ = _ |- _ => minv H end.
    all: repeat split; reflexivity. }
  destruct Facts as (Hf & Facts). split; [exact Hf|].
  destruct response as [|access refresh lifetime].
  - destruct Facts as (-> & Ht). split; [reflexivity | exact Ht].
  - destruct Facts as (-> & Ha & He). split; [reflexivity|].
    split; [exact Ha|]. split; [exact He|]. intros Htruthy. split.
    + destruct (ensureValidToken w s') as [r s''] eqn:E. cbn [fst].
      apply ensure_inv in E. destruct E as (_ & _ & _ & Hprog & _).
      apply Hprog; [congruence|]. unfold expired. now rewrite He.
    + destruct (ensureValidToken w s') as [r s''] eqn:E. cbn [snd].
      apply ensure_inv in E. destruct E as (_ & _ & _ & _ & evs & Hlog & _ & _ & Hr & _).
      rewrite (events_since_app _ _ _ Hlog), Hr.
      unfold expired. rewrite He. cbn. now rewrite andb_false_r.
Qed.

Lemma refresh_without_lifetime_throws_witness :
  exists s',
    file s' = file Scenario.stale /\
    refreshAccessToken Cases.timeless Scenario.stale =
      (Throw (new_Error "Failed to refresh token: Invalid time value"), s') /\
    accessToken s' = str "AT-1" /\
    tokenExpiry s' = Some InvalidDate /\
    (truthy (str "AT-1") = true ->
     fst (ensureValidToken Cases.timeless s') = Return tt /\
     refreshes (events_since s' (snd (ensureValidToken Cases.timeless s'))) = 0%nat).
Proof.
  apply (refresh_without_lifetime_throws Cases.timeless Scenario.stale 200
           (mkTokenData (str "AT-1") Undefined None)); reflexivity.
Defined.

(** ** Credential store, further *)

Lemma property_not_null (obj : Json) (k : string) :
  obj <> JNull -> exists v, property obj k = Return v.
Proof. destruct obj; intros H; try (eexists; reflexivity). now destruct H. Qed.

(** X5.  [loadTokens] never throws, whatever is on disk, and it never changes
    the file or the listener.  It loads the fields in order and stops at the
    first failure.  Either the three token fields are what they were (the
    file is missing or unreadable, does not parse, or parses to [null]); or
    the text parsed to a value other than [null], the access token and the
    refresh token are that value's [access_token] and [refresh_token], and
    the expiry is the date made from its [expires_at], or what it was before
    when no date can be made from it. *)
Theorem loadTokens_loads_in_order (w : World) (s : State) :
  exists s',
    loadTokens w s = (Return tt, s') /\
    file s' = file s /\ listening s' = listening s /\
    (tokens_of s' = tokens_of s \/
     exists text obj access refresh expires,
       file s = Content text /\ JSON_parse w text = Return obj /\ obj <> JNull /\
       property obj "access_token" = Return access /\
       property obj "refresh_token" = Return refresh /\
       property obj "expires_at" = Return expires /\
       accessToken s' = access /\ refreshToken s' = refresh /\
       match new_Date w expires with
       | Return d => tokenExpiry s' = Some d
       | Throw _ => tokenExpiry s' = tokenExpiry s
       end).
Proof.
  unfold loadTokens, readFileSync, try_catch, bind, gets, lift, ret, throw, emit,
    set_accessToken, set_refreshToken, set_tokenExpiry.
  cbv beta iota zeta.
  destruct (file s) as [|why|text] eqn:F; cbv beta iota zeta.
  - eexists. repeat split; auto.
  - rewrite F. cbv beta iota zeta. eexists. split; [reflexivity|]. cbn. repeat split; auto.
  - rewrite F. cbv beta iota zeta.
    destruct (JSON_parse w text) as [obj|e] eqn:P; cbv beta iota zeta.
    2:{ eexists. split; [reflexivity|]. cbn. repeat split; auto. }
    destruct obj; cbv beta iota zeta delta [property]; cbv beta iota zeta.
    1:{ eexists. split; [reflexivity|]. cbn. repeat split; auto. }
    all: match goal with |- context [new_Date _ ?v] =>
           destruct (new_Date _ v) as [d|e] eqn:D end;
      cbv beta iota zeta;
      eexists; (split; [reflexivity|]); cbn [file listening logged];
      (split; [exact F|]); (split; [reflexivity|]); right;
      do 5 eexists; (split; [reflexivity|]); (split; [exact P|]);
      (split; [discriminate|]); (split; [reflexivity|]); (split; [reflexivity|]);
      (split; [reflexivity|]); (split; [reflexivity|]); (split; [reflexivity|]);
      rewrite D; reflexivity.
Qed.

Lemma saveTokens_success (w : World) (s s' : State) :
  saveTokens w s = (Return tt, s') ->
  exists t,
    tokenExpiry s = Some (Instant t) /\
    file s' = Content (JSON_stringify w (token_record w (accessToken s) (refreshToken s) t)) /\
    tokens_of s' = tokens_of s.
Proof.
  intros H. unfold saveTokens in H. minv H.
  match goal with H : match tokenExpiry s with _ => _ end _ = _ |- _ => rename H into Hm end.
  destruct (tokenExpiry s) as [[|t]|] eqn:E; try (minv Hm; discriminate).
  unfold writeFileSync in Hm. cbv zeta in Hm. minv Hm.
  match goal with H : match ?x with _ => _ end _ = _ |- _ => destruct x; minv H end.
  exists t. unfold tokens_of. cbn. rewrite E. repeat split.
Qed.

Lemma load_token_record (w : World) (access refresh : Value) (t : Z) :
  reads_back w access refresh t ->
  tokens_of (constructor w (Content (JSON_stringify w (token_record w access refresh t))))
    = (access, refresh, Some (Instant t)).
Proof.
  intros [Hparse Hdate].
  unfold constructor, loadTokens, readFileSync, try_catch, bind, gets, lift, ret, throw,
    emit, set_accessToken, set_refreshToken, set_tokenExpiry.
  cbv beta iota zeta. cbn [file]. cbv beta iota zeta.
  rewrite Hparse. cbv beta iota zeta.
  unfold token_record at 1 2 3. cbv beta iota zeta delta [property]. cbv beta iota zeta.
  destruct access, refresh; cbn [field app lookup String.eqb Ascii.eqb Bool.eqb snd];
    unfold tokens_of; cbn [accessToken refreshToken tokenExpiry snd new_Date];
    rewrite Hdate; reflexivity.
Qed.

(** X6.  What [saveTokens] writes, [loadTokens] reads: if the engine reads
    back the record written for the held fields, a server constructed on the
    file left by a successful [saveTokens] holds the same access token,
    refresh token and expiry. *)
Theorem saved_tokens_load_back (w : World) (s s' : State) :
  saveTokens w s = (Return tt, s') ->
  (forall t, tokenExpiry s = Some (Instant t) ->
             reads_back w (accessToken s) (refreshToken s) t) ->
  tokens_of (constructor w (file s')) = tokens_of s.
Proof.
  intros Hsave Hback.
  apply saveTokens_success in Hsave. destruct Hsave as (t & Hexp & Hfile & _).
  rewrite Hfile, (load_token_record w _ _ t (Hback t Hexp)).
  unfold tokens_of. now rewrite Hexp.
Qed.

Lemma saved_tokens_load_back_witness :
  tokens_of (constructor Cases.archive (file (snd (saveTokens Cases.archive Scenario.fresh))))
    = tokens_of Scenario.fresh.
Proof.
  apply (saved_tokens_load_back Cases.archive Scenario.fresh
           (snd (saveTokens Cases.archive Scenario.fresh))).
  - vm_compute. reflexivity.
  - intros t Ht. injection Ht as <-. split; vm_compute; reflexivity.
Defined.

Lemma refresh_ends_in_save (w : World) (s s' : State) :
  refreshAccessToken w s = (Return tt, s') ->
  exists s1, saveTokens w s1 = (Return tt, s') /\ file s1 = file s.
Proof.
  intros H. unfold refreshAccessToken in H. minv H.
  match goal with H : (if _ then _ else _) _ = _ |- _ => rename H into Hif end.
  destruct (truthy (refreshToken s)); cbn [negb] in Hif; minv Hif; try discriminate.
  match goal with H : (if truthy ?b then _ else _) _ = _ |- _ =>
    destruct (truthy b); minv H end.
  all: match goal with H : saveTokens _ ?s1 = (Return ?u, _) |- _ =>
         destruct u; exists s1; split; [exact H | reflexivity] end.
Qed.

(** X7.  A successful refresh survives a restart: if the engine reads back
    the record written for the fields held after the refresh, a server
    constructed on the file the refresh left holds exactly those fields. *)
Theorem refreshed_tokens_survive_restart (w : World) (s s' : State) :
  refreshAccessToken w s = (Return tt, s') ->
  (forall t, tokenExpiry s' = Some (Instant t) ->
             reads_back w (accessToken s') (refreshToken s') t) ->
  tokens_of (constructor w (file s')) = tokens_of s'.
Proof.
  intros Hrun Hback.
  apply refresh_ends_in_save in Hrun. destruct Hrun as (s1 & Hsave & _).
  apply saveTokens_success in Hsave. destruct Hsave as (t & Hexp & Hfile & Hsame).
  unfold tokens_of in Hsame. injection Hsame as Ha Hr He.
  assert (Hexp' : tokenExpiry s' = Some (Instant t)) by congruence.
  specialize (Hback t Hexp'). rewrite Ha, Hr in Hback.
  rewrite Hfile, (load_token_record w _ _ t Hback).
  unfold tokens_of. now rewrite Ha, Hr, Hexp'.
Qed.

Lemma refreshed_tokens_survive_restart_witness :
  tokens_of (constructor Cases.renewing
               (file (snd (refreshAccessToken Cases.renewing Scenario.stale))))
    = tokens_of (snd (refreshAccessToken Cases.renewing Scenario.stale)).
Proof.
  apply (refreshed_tokens_survive_restart Cases.renewing Scenario.stale
           (snd (refreshAccessToken Cases.renewing Scenario.stale))).
  - vm_compute. reflexivity.
  - intros t Ht. vm_compute in Ht. injection Ht as <-. split; vm_compute; reflexivity.
Defined.

(** ** API gateway, further *)

(** The control flow of [makeSpotifyRequest], one case per way through it. *)
Lemma request_shape (w : World) (endpoint : string) (options : Options)
      (s : State) (r : Outcome Json) (s' : State) :
  makeSpotifyRequest w endpoint options s = (r, s') ->
  (exists e, ensureValidToken w s = (Throw e, s') /\ r = Throw e) \/
  exists s0,
    ensureValidToken w s = (Return tt, s0) /\
    ((Value_convertible (accessToken s0) = false /\ r = Throw CannotConvert /\ s' = s0) \/
     Value_convertible (accessToken s0) = true /\
     let req1 := request_config endpoint options (accessToken s0) in
     let reply1 := spotify_api w (count is_ApiCall (log s0)) req1 in
     let s1 := logged s0 (ApiCall req1 reply1) in
     ((forall body, reply1 <> Response 401 body) /\ r = axios_settle reply1 /\ s' = s1) \/
     (exists body, reply1 = Response 401 body /\
        ((exists e, refreshAccessToken w s1 = (Throw e, s') /\ r = Throw e) \/
         exists s2,
           refreshAccessToken w s1 = (Return tt, s2) /\
           ((Value_convertible (accessToken s2) = false /\
             r = Throw CannotConvert /\ s' = s2) \/
            Value_convertible (accessToken s2) = true /\
            let req2 := request_config endpoint options (accessToken s2) in
            let reply2 := spotify_api w (count is_ApiCall (log s2)) req2 in
            r = axios_settle reply2 /\ s' = logged s2 (ApiCall req2 reply2))))).
Proof.
  intros H. unfold makeSpotifyRequest in H. minv H.
  - (* settled at once *)
    right. match goal with H : ensureValidToken _ _ = (Return ?u, ?s0) |- _ =>
      destruct u; exists s0; split; [exact H|] end.
    right. split; [eapply interpolate_convertible; eassumption|].
    cbv zeta. left.
    match goal with H : axios_settle _ = Return _ |- _ => rename H into Hs end.
    split; [|split; [now rewrite Hs | reflexivity]].
    intros body Hb. rewrite Hb in Hs. discriminate.
  - (* rejected *)
    right. match goal with H : ensureValidToken _ _ = (Return ?u, ?s0) |- _ =>
      destruct u; exists s0; split; [exact H|] end.
    right. split; [eapply interpolate_convertible; eassumption|].
    cbv zeta.
    match goal with H : axios_settle _ = Throw _ |- _ =>
      pose proof (axios_settle_Throw _ _ _ H) as H401; rename H into Hs end.
    match goal with H : (if _ then _ else _) _ = _ |- _ => rename H into Hif end.
    destruct (status_is e 401) eqn:St.
    + destruct (proj1 H401 eq_refl) as (body & Hbody). right. exists body.
      split; [exact Hbody|]. minv Hif.
      * right. match goal with H : refreshAccessToken _ _ = (Return ?u, ?s2) |- _ =>
          destruct u; exists s2; split; [exact H|] end.
        right. split; [eapply interpolate_convertible; eassumption|].
        cbv zeta. split; reflexivity.
      * right. match goal with H : refreshAccessToken _ _ = (Return ?u, ?s2) |- _ =>
          destruct u; exists s2; split; [exact H|] end.
        left. match goal with H : interpolate _ = Throw _ |- _ =>
          apply interpolate_Throw in H; destruct H as (Hc & ->) end.
        repeat split; auto.
      * left. eexists. split; [eassumption | reflexivity].
    + minv Hif. left. split; [|split; [now rewrite Hs | reflexivity]].
      intros body Hb. assert (Hc : false = true) by (apply H401; eauto). discriminate.
  - (* the token cannot be written into the header *)
    right. match goal with H : ensureValidToken _ _ = (Return ?u, ?s0) |- _ =>
      destruct u; exists s0; split; [exact H|] end.
    left. match goal with H : interpolate _ = Throw _ |- _ =>
      apply interpolate_Throw in H; destruct H as (Hc & ->) end.
    repeat split; auto.
  - left. eexists. split; [eassumption | reflexivity].
Qed.

Lemma last_reply_snoc (evs : list Event) (req : ApiRequest) (reply : Http Json) :
  last_reply (evs ++ [ApiCall req reply]) = Some reply.
Proof.
  unfold last_reply. rewrite api_replies_app, map_app. cbn [api_replies map].
  apply last_last.
Qed.

(** What one call of [makeSpotifyRequest] adds to the log. *)
Lemma request_events (w : World) (endpoint : string) (options : Options)
      (s : State) (r : Outcome Json) (s' : State) :
  makeSpotifyRequest w endpoint options s = (r, s') ->
  exists evs tokens,
    log s' = (log s ++ evs)%list /\
    api_requests evs = map (request_config endpoint options) tokens /\
    (List.length tokens <= 2)%nat /\ (refreshes evs <= 2)%nat /\
    listening s' = listening s /\
    (forall body, r = Return body ->
       exists status earlier,
         tokens = (earlier ++ [accessToken s'])%list /\
         last_reply evs = Some (Response status body) /\ is_2xx status = true) /\
    (List.length tokens = 2%nat ->
       exists status response,
         List.last (token_replies evs) (NetworkError EmptyString)
           = Response status response /\
         is_2xx status = true /\
         nth_error tokens 1 = Some (access_token response) /\
         accessToken s' = access_token response).
Proof.
  intros H. apply request_shape in H.
  destruct H as [(e & He & ->) | (s0 & He & H)].
  - apply ensure_inv in He.
    destruct He as (Hl & _ & _ & _ & evs & Hlog & Hapi & _ & Hr & _).
    exists evs, []. rewrite (api_requests_none _ Hapi), Hr.
    repeat split; auto; try (cbn; lia); try discriminate.
    destruct (truthy (accessToken s) && expired w s); lia.
  - apply ensure_inv in He.
    destruct He as (Hl & _ & _ & _ & evs & Hlog & Hapi & _ & Hr & _).
    assert (Hpro : (refreshes evs <= 1)%nat).
    { rewrite Hr. destruct (truthy (accessToken s) && expired w s); lia. }
    destruct H as [(_ & -> & ->) | (_ & H)].
    { exists evs, []. rewrite (api_requests_none _ Hapi).
      repeat split; auto; try (cbn; lia); try discriminate. }
    cbv zeta in H.
    set (req1 := request_config endpoint options (accessToken s0)) in *.
    set (reply1 := spotify_api w (count is_ApiCall (log s0)) req1) in *.
    destruct H as [(Hne & -> & ->)
                  | (body1 & Hb1 & [(e & Hf & ->)
                                   | (s2 & Hf & [(_ & -> & ->) | (_ & H)])])].
    + exists (evs ++ [ApiCall req1 reply1])%list, [accessToken s0].
      split; [cbn [log logged]; rewrite Hlog, <- app_assoc; reflexivity|].
      rewrite api_requests_app, refreshes_app, (api_requests_none _ Hapi).
      repeat split; auto; try (cbn; lia); try discriminate.
      intros body Hret. apply axios_settle_Return in Hret.
      destruct Hret as (status & Hreply & H2xx).
      exists status, []. rewrite last_reply_snoc, Hreply. repeat split; auto.
    + apply refresh_inv in Hf.
      destruct Hf as (Hl' & evs' & Hlog' & Hr' & Hapi' & _ & _).
      exists (evs ++ ApiCall req1 reply1 :: Refresh :: evs')%list, [accessToken s0].
      split.
      { rewrite Hlog'. cbn [log logged]. rewrite Hlog, <- !app_assoc. reflexivity. }
      rewrite api_requests_app, refreshes_app, (api_requests_none _ Hapi).
      cbn [api_requests app]. rewrite (api_requests_none _ Hapi').
      repeat split; auto; try (cbn; lia); try discriminate.
      * unfold refreshes, count in *. cbn. lia.
      * cbn [listening logged] in Hl'. congruence.
    + apply refresh_inv in Hf.
      destruct Hf as (Hl' & evs' & Hlog' & Hr' & Hapi' & _ & _).
      exists (evs ++ ApiCall req1 reply1 :: Refresh :: evs')%list, [accessToken s0].
      split.
      { rewrite Hlog'. cbn [log logged]. rewrite Hlog, <- !app_assoc. reflexivity. }
      rewrite api_requests_app, refreshes_app, (api_requests_none _ Hapi).
      cbn [api_requests app]. rewrite (api_requests_none _ Hapi').
      repeat split; auto; try (cbn; lia); try discriminate.
      * unfold refreshes, count in *. cbn. lia.
      * cbn [listening logged] in Hl'. congruence.
    + apply refresh_inv in Hf.
      destruct Hf as (Hl' & evs' & Hlog' & Hr' & Hapi' & _ & Hok).
      destruct (Hok eq_refl) as (Htok & st & resp & life & Hrep & H2 & _ & _ & Hacc & _).
      cbv zeta in H. destruct H as (-> & ->).
      set (req2 := request_config endpoint options (accessToken s2)) in *.
      set (reply2 := spotify_api w (count is_ApiCall (log s2)) req2) in *.
      exists (evs ++ ApiCall req1 reply1 :: Refresh :: evs' ++ [ApiCall req2 reply2])%list,
             [accessToken s0; accessToken s2].
      split.
      { cbn [log logged]. rewrite Hlog'. cbn [log logged].
        rewrite Hlog, <- !app_assoc. reflexivity. }
      rewrite api_requests_app, refreshes_app, (api_requests_none _ Hapi).
      cbn [api_requests app]. rewrite api_requests_app, (api_requests_none _ Hapi').
      split; [reflexivity|]. split; [cbn; lia|]. split.
      { unfold refreshes, count in *. cbn. rewrite filter_app, length_app. cbn. lia. }
      split; [cbn [listening logged] in *; congruence|]. split.
      * intros body Hret. apply axios_settle_Return in Hret.
        destruct Hret as (status & Hreply & H2xx).
        exists status, [accessToken s0]. split; [reflexivity|].
        change (evs ++ ApiCall req1 reply1 :: Refresh :: evs' ++ [ApiCall req2 reply2])%list
          with (evs ++ (ApiCall req1 reply1 :: Refresh :: evs') ++ [ApiCall req2 reply2])%list.
        rewrite app_assoc, last_reply_snoc, Hreply. split; auto.
      * intros _. exists st, resp.
        cbv zeta in Htok. rewrite Hrep in Htok.
        rewrite token_replies_app. cbn [token_replies].
        rewrite token_replies_app, Htok. cbn [token_replies app].
        rewrite last_last.
        repeat split; auto. cbn. now rewrite Hacc.
Qed.

(** X8.  One call of [makeSpotifyRequest] sends at most two upstream requests
    and refreshes at most twice, whatever the services answer; every request
    it sends goes to the same address, the base address followed by the
    endpoint, with the method and body the caller passed and a JSON content
    type; the listener is not touched. *)
Theorem request_effort_is_bounded
    (w : World) (endpoint : string) (options : Options) (s : State) :
  (List.length (api_requests
     (events_since s (snd (makeSpotifyRequest w endpoint options s)))) <= 2)%nat /\
  (refreshes (events_since s (snd (makeSpotifyRequest w endpoint options s))) <= 2)%nat /\
  listening (snd (makeSpotifyRequest w endpoint options s)) = listening s /\
  forall req,
    In req (api_requests (events_since s (snd (makeSpotifyRequest w endpoint options s)))) ->
    url req = "https://api.spotify.com/v1" ++ endpoint /\
    method req = opt_method options /\ data req = opt_data options /\
    Content_Type req = "application/json".
Proof.
  destruct (makeSpotifyRequest w endpoint options s) as [r s'] eqn:Run. cbn [snd].
  apply request_events in Run.
  destruct Run as (evs & tokens & Hlog & Hreq & Hlen & Href & Hl & _).
  rewrite (events_since_app _ _ _ Hlog), Hreq, length_map.
  repeat split; auto;
    apply in_map_iff in H; destruct H as (token & <- & _); reflexivity.
Qed.

(** X9.  A first upstream reply other than a 401 settles the call: no second
    request is sent and no refresh follows it.  A 2xx reply is returned as
    the result; a network failure or any other status is thrown as it came,
    with its status. *)
Theorem first_reply_other_than_401_settles
    (w : World) (endpoint : string) (options : Options)
    (s : State) (r : Outcome Json) (s' : State) (reply : Http Json) :
  makeSpotifyRequest w endpoint options s = (r, s') ->
  nth_error (api_replies (events_since s s')) 0 = Some reply ->
  (forall body, reply <> Response 401 body) ->
  api_replies (events_since s s') = [reply] /\
  r = axios_settle reply /\
  refreshes (events_since s s') = (if expired w s then 1 else 0)%nat.
Proof.
  intros Run Hfirst Hne.
  pose proof (request_inv w endpoint options s r s' Run) as (_ & evs & Hlog & _ & Hcases).
  rewrite (events_since_app s s' evs Hlog) in *.
  destruct Hcases as
    [ (Hapi & _ & _)
    | [ (req & rep & Held & _ & Hapi & _ & Hr & _ & Href)
      | [ (req & body & e & Held & _ & Hapi & _)
        | (req & req' & body & rep & Held & _ & Hapi & _) ] ] ];
    rewrite Hapi in *; cbn in Hfirst; try discriminate;
    injection Hfirst as Hfirst; subst reply.
  - rewrite Held in Href. repeat split; auto.
  - now destruct (Hne body).
  - now destruct (Hne body).
Qed.

Lemma first_reply_other_than_401_settles_witness :
  api_replies (events_since Scenario.fresh
     (snd (makeSpotifyRequest Cases.failing "/me" no_options Scenario.fresh)))
    = [Response 429 Scenario.denial] /\
  fst (makeSpotifyRequest Cases.failing "/me" no_options Scenario.fresh)
    = axios_settle (Response 429 Scenario.denial) /\
  refreshes (events_since Scenario.fresh
     (snd (makeSpotifyRequest Cases.failing "/me" no_options Scenario.fresh)))
    = (if expired Cases.failing Scenario.fresh then 1 else 0)%nat.
Proof.
  apply (first_reply_other_than_401_settles Cases.failing "/me" no_options Scenario.fresh
           (fst (makeSpotifyRequest Cases.failing "/me" no_options Scenario.fresh))
           (snd (makeSpotifyRequest Cases.failing "/me" no_options Scenario.fresh))).
  - vm_compute. reflexivity.
  - vm_compute. reflexivity.
  - intros body. discriminate.
Defined.

(** X10.  Whenever a call sends a second upstream request, that request
    carries the access token of the refresh response that came just before
    it, and is otherwise the request the caller asked for. *)
Theorem retry_carries_refreshed_token
    (w : World) (endpoint : string) (options : Options)
    (s : State) (r : Outcome Json) (s' : State) (req2 : ApiRequest) :
  makeSpotifyRequest w endpoint options s = (r, s') ->
  nth_error (api_requests (events_since s s')) 1 = Some req2 ->
  exists status response,
    List.last (token_replies (events_since s s')) (NetworkError EmptyString)
      = Response status response /\
    is_2xx status = true /\
    req2 = request_config endpoint options (access_token response) /\
    Authorization req2 = "Bearer " ++ Value_toString (access_token response) /\
    accessToken s' = access_token response.
Proof.
  intros Run Hsecond. apply request_events in Run.
  destruct Run as (evs & tokens & Hlog & Hreq & Hlen & _ & _ & _ & Htwo).
  rewrite (events_since_app _ _ _ Hlog) in *. rewrite Hreq in Hsecond.
  assert (Hl2 : List.length tokens = 2%nat).
  { assert (1 < List.length (map (request_config endpoint options) tokens))%nat
      by (apply nth_error_Some; congruence).
    rewrite length_map in *. lia. }
  destruct (Htwo Hl2) as (status & response & Hlast & H2xx & Hnth & Hacc).
  exists status, response.
  rewrite nth_error_map, Hnth in Hsecond. cbn in Hsecond. injection Hsecond as <-.
  repeat split; auto.
Qed.

Lemma retry_carries_refreshed_token_witness :
  exists status response,
    List.last (token_replies (events_since Scenario.fresh (snd Scenario.retry_when_fresh)))
              (NetworkError EmptyString) = Response status response /\
    is_2xx status = true /\
    request_config "/me" no_options (str "AT-1")
      = request_config "/me" no_options (access_token response) /\
    Authorization (request_config "/me" no_options (str "AT-1"))
      = "Bearer " ++ Value_toString (access_token response) /\
    accessToken (snd Scenario.retry_when_fresh) = access_token response.
Proof.
  apply (retry_carries_refreshed_token Scenario.retry_world "/me" no_options Scenario.fresh
           (fst Scenario.retry_when_fresh) (snd Scenario.retry_when_fresh)
           (request_config "/me" no_options (str "AT-1"))).
  - vm_compute. reflexivity.
  - vm_compute. reflexivity.
Defined.

(** X11.  When a call returns a body, that body is the body of the last
    upstream reply, which had a 2xx status, and the request it answered
    carried the access token the server holds when the call ends. *)
Theorem returned_body_is_last_reply
    (w : World) (endpoint : string) (options : Options)
    (s : State) (body : Json) (s' : State) :
  makeSpotifyRequest w endpoint options s = (Return body, s') ->
  last_request (events_since s s')
    = Some (request_config endpoint options (accessToken s')) /\
  exists status,
    last_reply (events_since s s') = Some (Response status body) /\
    is_2xx status = true.
Proof.
  intros Run. apply request_events in Run.
  destruct Run as (evs & tokens & Hlog & Hreq & _ & _ & _ & Hret & _).
  rewrite (events_since_app _ _ _ Hlog).
  destruct (Hret body eq_refl) as (status & earlier & Htok & Hlast & H2xx).
  split; [|eauto].
  unfold last_request. rewrite Hreq, Htok, !map_app. cbn [map]. apply last_last.
Qed.

Lemma returned_body_is_last_reply_witness :
  last_request (events_since Scenario.fresh (snd Scenario.retry_when_fresh))
    = Some (request_config "/me" no_options
              (accessToken (snd Scenario.retry_when_fresh))) /\
  exists status,
    last_reply (events_since Scenario.fresh (snd Scenario.retry_when_fresh))
      = Some (Response status Scenario.profile) /\
    is_2xx status = true.
Proof.
  apply (returned_body_is_last_reply Scenario.retry_world "/me" no_options Scenario.fresh
           Scenario.profile (snd Scenario.retry_when_fresh)).
  vm_compute. reflexivity.
Defined.

(** ** Tool handlers, further *)

Lemma last_skips_prefix (A : Type) (l1 l2 : list A) (d : A) :
  l2 <> [] -> List.last (l1 ++ l2) d = List.last l2 d.
Proof.
  intros Hne. induction l1 as [|a l1 IH]; [reflexivity|].
  cbn [app]. destruct (l1 ++ l2)%list eqn:E.
  - apply app_eq_nil in E. now destruct E.
  - cbn [List.last]. exact IH.
Qed.

Lemma last_reply_app (evs1 evs2 : list Event) (reply : Http Json) :
  last_reply evs2 = Some reply -> last_reply (evs1 ++ evs2) = Some reply.
Proof.
  unfold last_reply. rewrite api_replies_app, map_app.
  intros H. rewrite last_skips_prefix; [exact H|].
  intros E. rewrite E in H. discriminate.
Qed.

Lemma request_returns (w : World) (endpoint : string) (options : Options)
      (s : State) (body : Json) (s' : State) :
  makeSpotifyRequest w endpoint options s = (Return body, s') ->
  exists evs status,
    log s' = (log s ++ evs)%list /\
    last_reply evs = Some (Response status body) /\ is_2xx status = true.
Proof.
  intros Run. apply request_events in Run.
  destruct Run as (evs & tokens & Hlog & _ & _ & _ & _ & Hret & _).
  destruct (Hret body eq_refl) as (status & _ & _ & Hlast & H2xx).
  eauto.
Qed.

Lemma request_then_respond (w : World) (endpoint : string) (options : Options)
      (s0 s : State) (pre : list Event) (body v : Json) (s1 s' : State) :
  log s = (log s0 ++ pre)%list ->
  makeSpotifyRequest w endpoint options s = (Return body, s1) ->
  respond w body s1 = (Return v, s') ->
  exists status body,
    last_reply (events_since s0 s') = Some (Response status body) /\
    is_2xx status = true /\ v = text_content (JSON_stringify w body).
Proof.
  intros Hs Run Hv. unfold respond, ret in Hv. inversion Hv; subst; clear Hv.
  apply request_returns in Run. destruct Run as (evs & status & Hlog & Hlast & H2xx).
  rewrite Hs, <- app_assoc in Hlog. rewrite (events_since_app _ _ _ Hlog).
  exists status, body. split; [|split]; [|assumption|reflexivity].
  apply last_reply_app. exact Hlast.
Qed.

Ltac handler_inv :=
  repeat match goal with
         | H : _ = (Return _, _) |- _ =>
             progress cbv beta zeta delta [getUserProfile getTopTracks getTopArtists
               getRecentlyPlayed searchTracks getTrackFeatures getPlaylists
               getPlaylistTracks createPlaylist addTracksToPlaylist getRecommendations] in H
         | H : bind (lift _) _ _ = (Return _, _) |- _ => minv H; try discriminate
         | H : bind (makeSpotifyRequest _ _ _) _ _ = (Return _, _) |- _ =>
             minv H; try discriminate
         end.

Ltac passthrough :=
  handler_inv;
  match goal with
  | Run : makeSpotifyRequest _ _ _ ?s = (Return ?body, ?s1),
    Hv : respond _ ?body ?s1 = (Return _, _) |- _ =>
      exact (request_then_respond _ _ _ s s [] _ _ _ _ (eq_sym (app_nil_r _)) Run Hv)
  end.

(** X12.  Every tool other than [spotify_authenticate] passes the upstream
    answer through: when its handler returns, the text of the result is the
    engine's rendering of the body of the last upstream reply of that
    invocation, which had a 2xx status; nothing is filtered or reshaped. *)
Theorem tool_result_is_last_upstream_body
    (w : World) (name : string) (args : Arguments) (s : State) (v : Json) (s' : State) :
  String.eqb name "spotify_authenticate" = false ->
  call_tool w name args s = (Return v, s') ->
  exists status body,
    last_reply (events_since s s') = Some (Response status body) /\
    is_2xx status = true /\ v = text_content (JSON_stringify w body).
Proof.
  intros Hname. unfold call_tool. rewrite Hname.
  repeat match goal with
         | |- (if ?b then _ else _) _ = _ -> _ => destruct b
         end;
    intros H.
  all: try passthrough.
  - handler_inv.
    match goal with
    | Run : makeSpotifyRequest _ "/me" _ _ = _ |- _ =>
        apply request_returns in Run; destruct Run as (pre & ? & Hpre & _)
    end.
    match goal with
    | Run : makeSpotifyRequest _ _ _ ?s1 = (Return ?body, ?s2),
      Hv : respond _ ?body ?s2 = (Return _, _) |- _ =>
        exact (request_then_respond _ _ _ s s1 pre _ _ _ _ Hpre Run Hv)
    end.
  - minv H.
Qed.

Lemma tool_result_is_last_upstream_body_witness :
  exists status body,
    last_reply (events_since Scenario.fresh (snd Cases.create_run))
      = Some (Response status body) /\
    is_2xx status = true /\
    text_content (JSON_stringify Cases.creating Cases.new_playlist)
      = text_content (JSON_stringify Cases.creating body).
Proof.
  apply (tool_result_is_last_upstream_body Cases.creating "create_playlist"
           (Some [("name", JStr "Road trip")]) Scenario.fresh
           (text_content (JSON_stringify Cases.creating Cases.new_playlist))
           (snd Cases.create_run)).
  - reflexivity.
  - vm_compute. reflexivity.
Defined.

Lemma bind_lift_Return (A B : Type) (a : A) (k : A -> M B) (s : State) :
  bind (lift (Return a)) k s = k a s.
Proof. reflexivity. Qed.

Lemma bind_lift_Throw (A B : Type) (e : Error) (k : A -> M B) (s : State) :
  bind (lift (Throw e)) k s = (Throw e, s).
Proof. reflexivity. Qed.







(** X14.  An invocation that carries no [arguments] object fails in the
    dispatcher for every tool that reads an argument: reading the first
    property of [undefined] throws, nothing is sent and the state is as
    before, whether or not the server holds a valid token; the caller gets
    the message as an error text. *)
Theorem call_without_arguments_fails_untouched
    (w : World) (name key : string) (s : State) :
  first_argument name = Some key ->
  call_tool w name None s =
    (Throw (TypeError ("Cannot read properties of undefined (reading '" ++ key ++ "')")), s) /\
  CallToolRequest w name None s =
    (Return (text_content
       ("Error: Cannot read properties of undefined (reading '" ++ key ++ "')")), s).
Proof.
  intros Hkey.
  assert (Hcall : call_tool w name None s =
    (Throw (TypeError ("Cannot read properties of undefined (reading '" ++ key ++ "')")), s)).
  { unfold first_argument in Hkey. unfold call_tool.
    destruct (String.eqb name "spotify_authenticate") eqn:E0.
    { apply String.eqb_eq in E0. subst name. vm_compute in Hkey. discriminate. }
    destruct (String.eqb name "get_user_profile") eqn:E1.
    { apply String.eqb_eq in E1. subst name. vm_compute in Hkey. discriminate. }
    repeat match type of Hkey with
           | (if ?b then _ else _) = _ => destruct b
           end;
      try discriminate; injection Hkey as <-; reflexivity. }
  split; [exact Hcall|].
  unfold CallToolRequest, try_catch. rewrite Hcall. reflexivity.
Qed.

Lemma call_without_arguments_fails_untouched_witness :
  call_tool Scenario.serving "search_tracks" None Scenario.fresh =
    (Throw (TypeError ("Cannot read properties of undefined (reading '" ++ "query" ++ "')")),
     Scenario.fresh) /\
  CallToolRequest Scenario.serving "search_tracks" None Scenario.fresh =
    (Return (text_content
       ("Error: Cannot read properties of undefined (reading '" ++ "query" ++ "')")),
     Scenario.fresh).
Proof.
  apply (call_without_arguments_fails_untouched Scenario.serving "search_tracks" "query"
           Scenario.fresh).
  reflexivity.
Defined.

Lemma last_reply_In (evs : list Event) (reply : Http Json) :
  last_reply evs = Some reply -> In reply (api_replies evs).
Proof.
  unfold last_reply. generalize (api_replies evs) as l.
  induction l as [|a l IH]; [discriminate|].
  destruct l as [|b l].
  - cbn. intros [= ->]. now left.
  - intros H. right. apply IH. exact H.
Qed.

Lemma request_methods (w : World) (endpoint : string) (options : Options)
      (s : State) (r : Outcome Json) (s' : State) :
  makeSpotifyRequest w endpoint options s = (r, s') ->
  exists evs,
    log s' = (log s ++ evs)%list /\
    (List.length (api_requests evs) <= 2)%nat /\
    (forall req, In req (api_requests evs) ->
       url req = "https://api.spotify.com/v1" ++ endpoint /\
       method req = opt_method options /\ data req = opt_data options) /\
    (forall body, r = Return body ->
       exists status, In (Response status body) (api_replies evs) /\ is_2xx status = true).
Proof.
  intros Run. apply request_events in Run.
  destruct Run as (evs & tokens & Hlog & Hreq & Hlen & _ & _ & Hret & _).
  exists evs. rewrite Hreq, length_map. repeat split; auto.
  1-3: apply in_map_iff in H; destruct H as (token & <- & _); reflexivity.
  intros body Hr. destruct (Hret body Hr) as (status & _ & _ & Hlast & H2xx).
  exists status. split; [apply last_reply_In; exact Hlast | exact H2xx].
Qed.

(** X15.  [create_playlist] sends at most four upstream requests, and every
    POST among them goes to the playlists of the user whose profile the same
    invocation fetched with a 2xx reply just before; it carries the name as
    given, a description that defaults to the empty string and a visibility
    that defaults to private.  When the profile cannot be fetched, nothing is
    posted. *)
Theorem playlist_is_created_for_fetched_profile
    (w : World) (name description isPublic : Value)
    (s : State) (r : Outcome Json) (s' : State) (req : ApiRequest) :
  createPlaylist w name description isPublic s = (r, s') ->
  In req (api_requests (events_since s s')) ->
  method req = Some "POST" ->
  (List.length (api_requests (events_since s s')) <= 4)%nat /\
  exists status profile id,
    In (Response status profile) (api_replies (events_since s s')) /\
    is_2xx status = true /\
    property profile "id" = Return id /\
    url req = "https://api.spotify.com/v1/users/" ++ Value_toString id ++ "/playlists" /\
    data req = Some (JObj (field "name" name ++
                           [("description", default (JStr EmptyString) description);
                            ("public", default (JBool false) isPublic)])%list).
Proof.
  intros Run Hin Hpost. unfold createPlaylist in Run. cbv zeta in Run.
  apply bind_inv in Run.
  destruct Run as [(profile & s1 & Run1 & K) | (e & Run1 & ->)];
    apply request_methods in Run1;
    destruct Run1 as (evs1 & Hlog1 & Hlen1 & Hreq1 & Hret1).
  2:{ rewrite (events_since_app _ _ _ Hlog1) in Hin.
      apply Hreq1 in Hin. destruct Hin as (_ & Hm & _).
      rewrite Hm in Hpost. discriminate. }
  destruct (Hret1 profile eq_refl) as (status & Hprofile & H2xx).
  destruct (property profile "id") as [id|e] eqn:Hid.
  2:{ rewrite bind_lift_Throw in K. injection K as <- <-.
      rewrite (events_since_app _ _ _ Hlog1) in Hin.
      apply Hreq1 in Hin. destruct Hin as (_ & Hm & _).
      rewrite Hm in Hpost. discriminate. }
  rewrite bind_lift_Return in K.
  destruct (interpolate id) as [user|e] eqn:Huser.
  2:{ rewrite bind_lift_Throw in K. injection K as <- <-.
      rewrite (events_since_app _ _ _ Hlog1) in Hin.
      apply Hreq1 in Hin. destruct Hin as (_ & Hm & _).
      rewrite Hm in Hpost. discriminate. }
  apply interpolate_inv in Huser. subst user.
  rewrite bind_lift_Return in K.
  assert (Run2 : exists r2,
             makeSpotifyRequest w ("/users/" ++ Value_toString id ++ "/playlists")
               (mkOptions (Some "POST")
                  (Some (JObj (field "name" name ++
                           [("description", default (JStr EmptyString) description);
                            ("public", default (JBool false) isPublic)])%list))) s1
             = (r2, s')).
  { apply bind_inv in K. destruct K as [(playlist & s2 & Run2 & Hv) | (e & Run2 & _)].
    - unfold respond, ret in Hv. injection Hv as _ <-. eauto.
    - eauto. }
  destruct Run2 as (r2 & Run2). apply request_methods in Run2.
  destruct Run2 as (evs2 & Hlog2 & Hlen2 & Hreq2 & _).
  rewrite Hlog1, <- app_assoc in Hlog2.
  rewrite (events_since_app _ _ _ Hlog2) in *.
  rewrite api_requests_app, api_replies_app, length_app in *.
  split; [lia|].
  apply in_app_or in Hin. destruct Hin as [Hin | Hin].
  { apply Hreq1 in Hin. destruct Hin as (_ & Hm & _).
    rewrite Hm in Hpost. discriminate. }
  apply Hreq2 in Hin. destruct Hin as (Hurl & _ & Hdata).
  exists status, profile, id.
  split; [apply in_or_app; left; exact Hprofile|].
  split; [exact H2xx|]. split; [exact Hid|].
  split; [exact Hurl | exact Hdata].
Qed.

Lemma playlist_is_created_for_fetched_profile_witness :
  (List.length (api_requests (events_since Scenario.fresh (snd Cases.create_run))) <= 4)%nat /\
  exists status profile id,
    In (Response status profile)
       (api_replies (events_since Scenario.fresh (snd Cases.create_run))) /\
    is_2xx status = true /\
    property profile "id" = Return id /\
    url Cases.playlist_post
      = "https://api.spotify.com/v1/users/" ++ Value_toString id ++ "/playlists" /\
    data Cases.playlist_post
      = Some (JObj (field "name" (str "Road trip") ++
                    [("description", default (JStr EmptyString) Undefined);
                     ("public", default (JBool false) Undefined)])%list).
Proof.
  apply (playlist_is_created_for_fetched_profile Cases.creating
           (str "Road trip") Undefined Undefined Scenario.fresh
           (fst Cases.create_run) (snd Cases.create_run) Cases.playlist_post).
  - vm_compute. reflexivity.
  - vm_compute. right. left. reflexivity.
  - reflexivity.
Defined.

(** ** Authorization flow, further *)

(** X16.  [spotify_authenticate] returns a result only after a callback with
    no error parameter arrived and the one token request of the flow was
    answered 2xx; by then the server holds the access token and refresh token
    of that response exactly as sent (the refresh token also when it is
    missing), an expiry of the current time plus the granted lifetime, the
    token file holds the record of these three, and the listener is closed. *)
Theorem authentication_installs_granted_tokens
    (w : World) (s : State) (v : Json) (s' : State) :
  authenticate w s = (Return v, s') ->
  exists req status response lifetime,
    callback w (count is_Listen (log s)) = Some req /\
    truthy (query_error req) = false /\
    token_replies (events_since s s') = [Response status response] /\
    is_2xx status = true /\
    expires_in response = Some lifetime /\
    accessToken s' = access_token response /\
    refreshToken s' = refresh_token response /\
    tokenExpiry s' = Some (Instant (now w s + lifetime * 1000)) /\
    file s' = Content (JSON_stringify w
                (token_record w (access_token response) (refresh_token response)
                   (now w s + lifetime * 1000))) /\
    listening s' = false.
Proof.
  intros H. unfold authenticate in H. minv H; try discriminate.
  destruct (callback w (count is_Listen (log s))) as [req|] eqn:Hcb; cbn [deliver] in H.
  2:{ unfold on_timeout, server_close in H. minv H. discriminate. }
  unfold on_callback in H. cbv zeta in H.
  destruct (truthy (query_error req)) eqn:Herr; minv H; try discriminate.
  match goal with H : axios_settle _ = Return _ |- _ =>
    apply axios_settle_Return in H; destruct H as (status & Hreply & H2xx) end.
  rewrite Hreply in *.
  match goal with H : saveTokens _ _ = (Return ?u, _) |- _ =>
    pose proof (saveTokens_inv _ _ _ _ H)
      as (_ & _ & _ & Hl & _ & evs & Hlog & _ & _ & Hnt & _);
    destruct u; apply saveTokens_success in H; destruct H as (t & Hexp & Hfile & Htok) end.
  unfold tokens_of in Htok. cbn [accessToken refreshToken tokenExpiry] in Htok, Hexp, Hfile.
  injection Htok as Ha Hr He. rewrite Hexp in He.
  assert (Hnow : forall a r e l f evs',
             count is_Clock evs' = 0%nat ->
             now w (mkState a r e l f (log s ++ evs')) = now w s).
  { intros. unfold now. cbn [log]. rewrite count_app. f_equal. lia. }
  rewrite <- !app_assoc in Hexp. rewrite <- !app_assoc in Hlog.
  cbn [app] in Hexp, Hlog.
  rewrite Hnow in Hexp by reflexivity.
  destruct (expires_in a1) as [lifetime|] eqn:Hlife; cbn [expiry_after] in Hexp;
    [|discriminate].
  injection Hexp as Hexp. apply TimeClip_Instant in Hexp. subst t.
  unfold server_close in *.
  match goal with H : bind _ _ _ = _ |- _ => minv H end.
  exists req, status, a1, lifetime. cbn [accessToken refreshToken tokenExpiry file listening].
  repeat (split; [first [reflexivity | assumption | congruence]|]).
  split.
  - erewrite events_since_app.
    2:{ cbn [log logged]. rewrite Hlog. cbn [log]. rewrite <- !app_assoc. reflexivity. }
    cbn [app token_replies]. rewrite !token_replies_app, Hnt. reflexivity.
  - repeat (split; [first [reflexivity | assumption | congruence]|]).
    reflexivity.
Qed.

Lemma authentication_installs_granted_tokens_witness :
  exists req status response lifetime,
    callback Cases.signing_in (count is_Listen (log Cases.signed_out)) = Some req /\
    truthy (query_error req) = false /\
    token_replies (events_since Cases.signed_out (snd Cases.sign_in_run))
      = [Response status response] /\
    is_2xx status = true /\
    expires_in response = Some lifetime /\
    accessToken (snd Cases.sign_in_run) = access_token response /\
    refreshToken (snd Cases.sign_in_run) = refresh_token response /\
    tokenExpiry (snd Cases.sign_in_run)
      = Some (Instant (now Cases.signing_in Cases.signed_out + lifetime * 1000)) /\
    file (snd Cases.sign_in_run)
      = Content (JSON_stringify Cases.signing_in
          (token_record Cases.signing_in (access_token response) (refresh_token response)
             (now Cases.signing_in Cases.signed_out + lifetime * 1000))) /\
    listening (snd Cases.sign_in_run) = false.
Proof.
  apply (authentication_installs_granted_tokens Cases.signing_in Cases.signed_out
           (text_content
              "Successfully authenticated with Spotify! You can now use all Spotify tools.")
           (snd Cases.sign_in_run)).
  vm_compute. reflexivity.
Defined.

(** X17.  Take a flow that starts while no listener of an earlier flow is
    left.  If [spotify_authenticate] fails, it has sent nothing to the Web
    API, and the token file is as it was, unless the failure is that of the
    write itself after the file was opened: then the file holds the beginning
    of the new record, as far as the write got.  Either the held tokens are
    as before, or the code was exchanged with a 2xx answer and the flow
    failed after that: then the server already holds the access and refresh
    token of that answer, although the caller was told that authentication
    failed. *)
Theorem failed_authentication_keeps_or_cuts_file
    (w : World) (s : State) (e : Error) (s' : State) :
  listening s = false ->
  authenticate w s = (Throw e, s') ->
  api_requests (events_since s s') = [] /\
  (file s' = file s \/
   exists failure n t,
     write_error w (count is_FileWrite (log s)) = Some failure /\
     written failure = Some n /\
     e = new_Error (failure_message failure) /\
     tokenExpiry s' = Some (Instant t) /\
     file s' = Content (substring 0 n
                  (JSON_stringify w
                     (token_record w (accessToken s') (refreshToken s') t)))) /\
  (tokens_of s' = tokens_of s \/
   exists status response,
     token_replies (events_since s s') = [Response status response] /\
     is_2xx status = true /\
     accessToken s' = access_token response /\
     refreshToken s' = refresh_token response).
Proof.
  intros _ H. unfold authenticate in H. minv H.
  2:{ exfalso.
      match goal with H : deliver _ _ _ = (Throw _, _) |- _ => rename H into D end.
      destruct (callback w (count is_Listen (log s))); cbn [deliver] in D.
      - apply on_callback_inv in D. destruct D as (? & [=] & _).
      - unfold on_timeout, server_close in D. minv D. }
  destruct (callback w (count is_Listen (log s))) as [req|] eqn:Hcb; cbn [deliver] in H.
  2:{ unfold on_timeout, server_close in H. minv H.
      split; [|split; left; reflexivity].
      erewrite events_since_app;
        [|cbn [log logged]; rewrite <- !app_assoc; reflexivity].
      reflexivity. }
  unfold on_callback in H. cbv zeta in H.
  destruct (truthy (query_error req)) eqn:Herr; minv H; try discriminate.
  all: try (split; [|split; left; reflexivity];
            erewrite events_since_app;
              [|cbn [log logged]; rewrite <- !app_assoc; reflexivity];
            reflexivity).
  1:{ exfalso. congruence. }
  match goal with H : axios_settle _ = Return _ |- _ =>
    apply axios_settle_Return in H; destruct H as (status & Hreply & H2xx) end.
  rewrite Hreply in *.
  match goal with H : saveTokens _ _ = _ |- _ =>
    pose proof (saveTokens_inv _ _ _ _ H)
      as (Ha & Hr & Hexp & _ & _ & evs & Hlog & _ & Hna & Hnt & _);
    apply saveTokens_failure in H; rename H into Hfile end.
  cbn [accessToken refreshToken tokenExpiry file log logged] in *.
  rewrite <- !app_assoc in Hlog. cbn [app] in Hlog.
  match goal with |- context [events_since s (logged ?s1 _)] => rename s1 into s1' end.
  match goal with Hd : data_property ?d _ = Return _ |- _ => rename d into response end.
  assert (Hsince : forall x, events_since s (logged s1' x) =
            ([Listen 8888; OpenBrowser (authorize_url w);
              TokenPost (authorization_code_form w (query_code req))
                        (Response status response);
              Clock (now w s)] ++ evs ++ [x])%list).
  { intros x. apply events_since_app. cbn [log logged]. rewrite Hlog.
    rewrite <- !app_assoc. cbn [app].
    do 5 f_equal. unfold now. cbn [log]. rewrite count_app. cbn. now rewrite Nat.add_0_r. }
  rewrite Hsince.
  split; [|split].
  - cbn [app api_requests]. rewrite api_requests_app, (api_requests_none _ Hna). reflexivity.
  - destruct Hfile as [Hfile | (failure & n & t & Hw & Hn & He & Ht & Hfile)];
      [left; exact Hfile|].
    right. exists failure, n, t.
    split; [|split; [exact Hn|split; [|split]]].
    + rewrite <- Hw. f_equal. rewrite !count_app. cbn. lia.
    + congruence.
    + congruence.
    + rewrite Hfile, Ha, Hr. reflexivity.
  - right. exists status, response. cbn [app token_replies].
    rewrite token_replies_app, Hnt. repeat split; assumption.
Qed.

Lemma failed_authentication_keeps_or_cuts_file_witness :
  api_requests (events_since Scenario.fresh (snd Cases.half_run)) = [] /\
  (file (snd Cases.half_run) = file Scenario.fresh \/
   exists failure n t,
     write_error Cases.half_granting (count is_FileWrite (log Scenario.fresh))
       = Some failure /\
     written failure = Some n /\
     RangeError "Invalid time value" = new_Error (failure_message failure) /\
     tokenExpiry (snd Cases.half_run) = Some (Instant t) /\
     file (snd Cases.half_run) =
       Content (substring 0 n
                  (JSON_stringify Cases.half_granting
                     (token_record Cases.half_granting
                        (accessToken (snd Cases.half_run))
                        (refreshToken (snd Cases.half_run)) t)))) /\
  (tokens_of (snd Cases.half_run) = tokens_of Scenario.fresh \/
   exists status response,
     token_replies (events_since Scenario.fresh (snd Cases.half_run))
       = [Response status response] /\
     is_2xx status = true /\
     accessToken (snd Cases.half_run) = access_token response /\
     refreshToken (snd Cases.half_run) = refresh_token response).
Proof.
  apply (failed_authentication_keeps_or_cuts_file Cases.half_granting Scenario.fresh
           (RangeError "Invalid time value") (snd Cases.half_run)).
  - reflexivity.
  - vm_compute. reflexivity.
Defined.

(** ** Query strings *)

Lemma occurrences_app (c : ascii) (a b : string) :
  occurrences c (a ++ b) = (occurrences c a + occurrences c b)%nat.
Proof.
  induction a as [|x a IH]; [reflexivity|].
  cbn [String.append occurrences]. rewrite IH. apply Nat.add_assoc.
Qed.

Lemma form_byte_clean (x : ascii) :
  occurrences "&" (Url.form_byte x) = 0%nat /\ occurrences "=" (Url.form_byte x) = 0%nat.
Proof.
  destruct x as [[] [] [] [] [] [] [] []]; split; vm_compute; reflexivity.
Qed.

Lemma form_encode_clean (text : string) :
  occurrences "&" (Url.form_encode text) = 0%nat /\
  occurrences "=" (Url.form_encode text) = 0%nat.
Proof.
  induction text as [|x text [IHa IHe]]; [split; reflexivity|].
  cbn [Url.form_encode]. rewrite !occurrences_app, IHa, IHe.
  destruct (form_byte_clean x) as [-> ->]. split; reflexivity.
Qed.

Lemma form_pair_delimiters (p : string * string) :
  occurrences "&" (Url.form_pair p) = 0%nat /\ occurrences "=" (Url.form_pair p) = 1%nat.
Proof.
  unfold Url.form_pair. rewrite !occurrences_app.
  destruct (form_encode_clean (fst p)) as [-> ->].
  destruct (form_encode_clean (snd p)) as [-> ->].
  split; reflexivity.
Qed.

Lemma serialize_delimiters (q : Url.URLSearchParams) :
  occurrences "&" (Url.serialize q) = Nat.pred (List.length q) /\
  occurrences "=" (Url.serialize q) = List.length q.
Proof.
  unfold Url.serialize.
  induction q as [|p q [IHa IHe]]; [split; reflexivity|].
  destruct (form_pair_delimiters p) as [Ha He].
  destruct q as [|p' q].
  - cbn [map String.concat List.length Nat.pred]. now rewrite Ha, He.
  - change (String.concat "&" (map Url.form_pair (p :: p' :: q)))
      with (Url.form_pair p ++ "&" ++ String.concat "&" (map Url.form_pair (p' :: q))).
    rewrite !occurrences_app, IHa, IHe, Ha, He. cbn. split; reflexivity.
Qed.

(** X18.  Whatever [get_recommendations] is given, the query string it
    builds, when it builds one, has exactly one [=] for each forwarded
    argument and exactly one [&] between two of them: no key or value,
    whatever characters it contains, can add a parameter to the query or cut
    one short. *)
Theorem recommendation_query_cannot_be_split
    (params : list (string * Json)) (query : Url.URLSearchParams) :
  recommendation_params params = Return query ->
  occurrences "=" (Url.serialize query) = List.length (forwarded params) /\
  occurrences "&" (Url.serialize query) = Nat.pred (List.length (forwarded params)).
Proof.
  intros H. apply recommendation_params_Return in H. destruct H as (_ & ->).
  destruct (serialize_delimiters (forwarded params)) as [Ha He]. split; assumption.
Qed.

Lemma recommendation_query_cannot_be_split_witness :
  occurrences "=" (Url.serialize (forwarded Scenario.excess))
    = List.length (forwarded Scenario.excess) /\
  occurrences "&" (Url.serialize (forwarded Scenario.excess))
    = Nat.pred (List.length (forwarded Scenario.excess)).
Proof.
  apply (recommendation_query_cannot_be_split Scenario.excess (forwarded Scenario.excess)).
  reflexivity.
Defined.

(** *** What the receiver reads *)

Lemma form_decode_byte (x : ascii) (rest : string) :
  Url.form_decode (Url.form_byte x ++ rest) = String x (Url.form_decode rest).
Proof.
  destruct x as [[] [] [] [] [] [] [] []]; reflexivity.
Qed.

Lemma form_decode_encode (text : string) : Url.form_decode (Url.form_encode text) = text.
Proof.
  induction text as [|x text IH]; [reflexivity|].
  cbn [Url.form_encode]. rewrite form_decode_byte, IH. reflexivity.
Qed.

Lemma split_piece (sep : ascii) (a : string) :
  occurrences sep a = 0%nat -> Url.split sep a = [a].
Proof.
  induction a as [|c a IH]; [reflexivity|].
  cbn [occurrences Url.split]. rewrite Ascii.eqb_sym.
  destruct (Ascii.eqb c sep); [discriminate|].
  intros H. rewrite (IH H). reflexivity.
Qed.

Lemma split_app (sep : ascii) (a b : string) :
  occurrences sep a = 0%nat ->
  Url.split sep (a ++ String sep b) = a :: Url.split sep b.
Proof.
  induction a as [|c a IH]; cbn [occurrences Url.split String.append].
  - now rewrite Ascii.eqb_refl.
  - rewrite Ascii.eqb_sym. destruct (Ascii.eqb c sep); [discriminate|].
    intros H. rewrite (IH H). reflexivity.
Qed.

Lemma cut_app (a b : string) :
  occurrences "=" a = 0%nat -> Url.cut (a ++ String "=" b) = (a, b).
Proof.
  induction a as [|c a IH]; cbn [occurrences Url.cut String.append].
  - reflexivity.
  - rewrite Ascii.eqb_sym. destruct (Ascii.eqb c "="); [discriminate|].
    intros H. rewrite (IH H). reflexivity.
Qed.

Lemma parse_form_pair (p : string * string) : Url.parse_pair (Url.form_pair p) = p.
Proof.
  unfold Url.parse_pair, Url.form_pair.
  change (Url.form_encode (fst p) ++ "=" ++ Url.form_encode (snd p))
    with (Url.form_encode (fst p) ++ String "=" (Url.form_encode (snd p))).
  rewrite cut_app by apply form_encode_clean.
  rewrite !form_decode_encode. now destruct p.
Qed.

Lemma form_pair_piece (p : string * string) :
  occurrences "&" (Url.form_pair p) = 0%nat /\
  String.eqb (Url.form_pair p) EmptyString = false.
Proof.
  split; [apply form_pair_delimiters|].
  unfold Url.form_pair. destruct (Url.form_encode (fst p)); reflexivity.
Qed.

Lemma split_serialize (p : string * string) (q : Url.URLSearchParams) :
  Url.split "&" (Url.serialize (p :: q)) = map Url.form_pair (p :: q).
Proof.
  revert p. induction q as [|p' q IH]; intros p.
  - cbn. apply split_piece. apply form_pair_piece.
  - change (Url.serialize (p :: p' :: q))
      with (Url.form_pair p ++ String "&" (Url.serialize (p' :: q))).
    rewrite split_app by apply form_pair_piece. rewrite IH. reflexivity.
Qed.

(** What [serialize] writes, [parse] reads. *)
Lemma parse_serialize (q : Url.URLSearchParams) : Url.parse (Url.serialize q) = q.
Proof.
  destruct q as [|p q]; [reflexivity|].
  unfold Url.parse. rewrite split_serialize.
  assert (E : forall l, filter (fun piece => negb (String.eqb piece EmptyString))
                               (map Url.form_pair l) = map Url.form_pair l).
  { induction l as [|x l IHl]; [reflexivity|].
    cbn [map filter]. rewrite (proj2 (form_pair_piece x)). cbn [negb]. now rewrite IHl. }
  rewrite E, map_map. rewrite <- (map_id (p :: q)) at 2.
  apply map_ext. apply parse_form_pair.
Qed.

(** ** Credential store and token manager together *)

(** X19.  A token file without [expires_at] yields a token that is taken as
    valid for good: a server constructed on such a file holds an invalid
    date as expiry, and its validity check reads the clock once, never
    refreshes and lets the call proceed. *)
Theorem undated_token_file_is_not_refreshed
    (w : World) (text : string) (entries : list (string * Json)) :
  JSON_parse w text = Return (JObj entries) ->
  lookup "expires_at" entries = Undefined ->
  truthy (lookup "access_token" entries) = true ->
  tokenExpiry (constructor w (Content text)) = Some InvalidDate /\
  ensureValidToken w (constructor w (Content text))
    = (Return tt,
       logged (constructor w (Content text))
              (Clock (now w (constructor w (Content text))))).
Proof.
  intros Hparse Hexp Htoken.
  destruct (load_without_expires_at w text entries Hparse Hexp) as (Ha & _ & He).
  split; [exact He|].
  unfold ensureValidToken, bind, gets. cbv beta iota. rewrite Ha, Htoken.
  cbn [negb]. cbv beta iota. rewrite He. reflexivity.
Qed.

Lemma undated_token_file_is_not_refreshed_witness :
  tokenExpiry (constructor Cases.undated (Content "{}")) = Some InvalidDate /\
  ensureValidToken Cases.undated (constructor Cases.undated (Content "{}"))
    = (Return tt,
       logged (constructor Cases.undated (Content "{}"))
              (Clock (now Cases.undated (constructor Cases.undated (Content "{}"))))).
Proof.
  apply (undated_token_file_is_not_refreshed Cases.undated "{}"
           [("access_token", JStr "AT-0")]).
  - reflexivity.
  - reflexivity.
  - reflexivity.
Defined.

(** ** Recommendations, end to end *)

Lemma forwarded_In (params : list (string * Json)) (key text : string) :
  In (key, text) (forwarded params) <->
  exists value, In (key, value) params /\ value <> JNull /\ text = rendered value.
Proof.
  unfold forwarded. rewrite in_map_iff. split.
  - intros ([k v] & E & Hin). cbn [fst snd] in E. injection E as <- <-.
    apply filter_In in Hin. destruct Hin as (Hin & Hnn). cbn [snd] in Hnn.
    exists v. repeat split; auto. intros ->. discriminate.
  - intros (v & Hin & Hnn & ->). exists (key, v). split; [reflexivity|].
    apply filter_In. split; [exact Hin|]. cbn [snd]. destruct v; try reflexivity.
    now destruct Hnn.
Qed.

(** On a valid token the gateway does send a request. *)
Lemma valid_token_sends (w : World) (endpoint : string) (options : Options)
      (s : State) (r : Outcome Json) (s' : State) :
  makeSpotifyRequest w endpoint options s = (r, s') ->
  truthy (accessToken s) = true ->
  Value_convertible (accessToken s) = true ->
  expired w s = false ->
  api_requests (events_since s s') <> [].
Proof.
  intros Run Htoken Hconv Hfresh. apply request_shape in Run.
  destruct Run as [(e & He & _) | (s0 & He & Hrest)].
  { apply ensure_inv in He. destruct He as (_ & _ & _ & Hok & _).
    specialize (Hok Htoken Hfresh). discriminate. }
  apply ensure_inv in He. destruct He as (_ & _ & _ & _ & evs & Hlog & _ & _ & _ & Hkept).
  specialize (Hkept eq_refl). rewrite Hfresh in Hkept. destruct Hkept as (_ & Hacc & _).
  destruct Hrest as [(Hc & _) | (_ & Hrest)]; [congruence|].
  cbv zeta in Hrest.
  destruct Hrest as [(_ & _ & ->) | (body & _ & [(e & Hf & _) | (s2 & Hf & Hrest)])].
  - erewrite events_since_app; [|cbn [log logged]; rewrite Hlog, <- app_assoc; reflexivity].
    rewrite api_requests_app. cbn [api_requests]. now destruct (api_requests evs).
  - apply refresh_inv in Hf. destruct Hf as (_ & evs' & Hlog' & _).
    erewrite events_since_app;
      [|rewrite Hlog'; cbn [log logged]; rewrite Hlog, <- !app_assoc; reflexivity].
    rewrite api_requests_app. cbn [app api_requests]. now destruct (api_requests evs).
  - apply refresh_inv in Hf. destruct Hf as (_ & evs' & Hlog' & _).
    destruct Hrest as [(_ & _ & ->) | (_ & _ & ->)].
    + erewrite events_since_app;
        [|rewrite Hlog'; cbn [log logged]; rewrite Hlog, <- !app_assoc; reflexivity].
      rewrite api_requests_app. cbn [app api_requests]. now destruct (api_requests evs).
    + erewrite events_since_app;
        [|cbn [log logged]; rewrite Hlog'; cbn [log logged]; rewrite Hlog, <- !app_assoc;
          reflexivity].
      rewrite api_requests_app. cbn [app api_requests]. now destruct (api_requests evs).
Qed.

(** C10 (as amended).  Take any arguments of [get_recommendations],
    conforming to the declared schema or not.  If every supplied value can be
    converted to a string, then every request the handler sends upstream goes
    to [/recommendations] with a query string from which the receiver reads
    exactly these name/value pairs: one for each supplied key whose value is
    not [null], declared or not, within the declared bounds or not, with the
    value converted to a string and an array joined with commas; and on a
    valid token (held, fit to be written into the header, not expired) such
    a request is sent.  If some supplied value cannot be
    converted (an object with a property [toString] of its own, directly or
    in an array), the handler throws a [TypeError] before anything is sent,
    and forwards nothing. *)
Theorem recommendations_forward_convertible_arguments
    (w : World) (params : list (string * Json))
    (s : State) (r : Outcome Json) (s' : State) :
  getRecommendations w (Some params) s = (r, s') ->
  (all_convertible params = true ->
   (forall req,
      In req (api_requests (events_since s s')) ->
      exists query,
        url req = "https://api.spotify.com/v1/recommendations?" ++ query /\
        forall key text,
          In (key, text) (Url.parse query) <->
          exists value, In (key, value) params /\ value <> JNull /\ text = rendered value) /\
   (truthy (accessToken s) = true -> Value_convertible (accessToken s) = true ->
    expired w s = false ->
    api_requests (events_since s s') <> [])) /\
  (all_convertible params = false ->
   s' = s /\
   (r = Throw (TypeError "value.toString is not a function") \/ r = Throw CannotConvert)).
Proof.
  intros Run. unfold getRecommendations in Run. cbn [Object_entries] in Run.
  rewrite bind_lift_Return in Run.
  pose proof (all_convertible_perm _ _ (own_properties_perm params)) as Hperm.
  split; intros Hc; rewrite <- Hperm in Hc.
  - unfold recommendation_params in Run.
    rewrite (forEach_add_param _ _ Hc) in Run. cbn [app] in Run.
    rewrite bind_lift_Return in Run.
    assert (Req : exists r0,
               makeSpotifyRequest w
                 ("/recommendations?" ++ Url.serialize (forwarded (own_properties params)))
                 no_options s = (r0, s')).
    { apply bind_inv in Run. destruct Run as [(body & s1 & Req & Hv) | (e & Req & _)].
      - unfold respond, ret in Hv. injection Hv as _ <-. eauto.
      - eauto. }
    destruct Req as (r0 & Req). split.
    + intros req Hin. apply request_methods in Req.
      destruct Req as (evs & Hlog & _ & Hreq & _).
      rewrite (events_since_app _ _ _ Hlog) in Hin.
      apply Hreq in Hin. destruct Hin as (Hurl & _).
      exists (Url.serialize (forwarded (own_properties params))).
      split; [exact Hurl|]. intros key text. rewrite parse_serialize.
      rewrite <- forwarded_In. split; apply Permutation_in.
      * apply forwarded_perm, own_properties_perm.
      * apply Permutation_sym, forwarded_perm, own_properties_perm.
    + intros Htoken Hconv Hfresh.
      exact (valid_token_sends _ _ _ _ _ _ Req Htoken Hconv Hfresh).
  - unfold recommendation_params in Run.
    destruct (forEach_add_param_throws _ [] Hc) as [E | E];
      rewrite E, bind_lift_Throw in Run; injection Run as <- <-; auto.
Qed.

Lemma recommendations_forward_convertible_arguments_witness :
  (all_convertible Scenario.excess = true ->
   (forall req,
      In req (api_requests (events_since Scenario.fresh (snd Scenario.excess_run))) ->
      exists query,
        url req = "https://api.spotify.com/v1/recommendations?" ++ query /\
        forall key text,
          In (key, text) (Url.parse query) <->
          exists value,
            In (key, value) Scenario.excess /\ value <> JNull /\ text = rendered value) /\
   (truthy (accessToken Scenario.fresh) = true ->
    Value_convertible (accessToken Scenario.fresh) = true ->
    expired Scenario.serving Scenario.fresh = false ->
    api_requests (events_since Scenario.fresh (snd Scenario.excess_run)) <> [])) /\
  (all_convertible Scenario.excess = false ->
   snd Scenario.excess_run = Scenario.fresh /\
   (fst Scenario.excess_run = Throw (TypeError "value.toString is not a function") \/
    fst Scenario.excess_run = Throw CannotConvert)).
Proof.
  apply (recommendations_forward_convertible_arguments Scenario.serving Scenario.excess
           Scenario.fresh (fst Scenario.excess_run) (snd Scenario.excess_run)).
  vm_compute. reflexivity.
Defined.

(** C10, counterexample.  The forwarding rule read literally fails: with
    [{seed_genres: ["rock"], target_energy: {toString: null}}] on a valid
    token, the second value cannot be converted to a string and stops the
    handler before it sends anything, so [seed_genres] is not forwarded
    either. *)
Lemma unconvertible_argument_forwards_nothing : ~ forwards_every_argument_claim.
Proof.
  intros Claim.
  assert (Htoken : truthy (accessToken Scenario.fresh) = true) by reflexivity.
  assert (Hconv : Value_convertible (accessToken Scenario.fresh) = true) by reflexivity.
  assert (Hfresh : expired Scenario.serving Scenario.fresh = false)
    by (vm_compute; reflexivity).
  assert (Run : getRecommendations Scenario.serving (Some Scenario.unconvertible)
                  Scenario.fresh
                = (fst Scenario.unconvertible_run, snd Scenario.unconvertible_run))
    by (vm_compute; reflexivity).
  destruct (Claim Scenario.serving Scenario.unconvertible Scenario.fresh _ _
              "seed_genres" (JArr [JStr "rock"]) Htoken Hconv Hfresh Run)
    as (req & query & Hin & _).
  - cbn. tauto.
  - discriminate.
  - vm_compute in Hin. exact Hin.
Qed.

(** ** The dispatch boundary *)












